(** * politely / politetune: the politeness styler pipeline

    A shallow embedding of [politely/processors.py] (class [Styler]) and of
    the older [politetune/processors.py] (class [Tuner]), with the
    properties of the rule-based conjugation pipeline proved about them.

    A Python [str] is a sequence of Unicode code points; it is modelled as
    a list of code points ([N]).  The rule tables are Python dicts that the
    code iterates in insertion order: they are association lists.  The
    substitution histories are Python sets: they are [gset]s. *)

From Stdlib Require Import NArith ZArith String Ascii.
From stdpp Require Import base decidable countable list gmap.

#[local] Set Warnings "-clear-no-such-hyp".

Abbreviation str := (list N) (only parsing).

(** ASCII literals as code-point lists. *)
Definition lit (s : String.string) : str :=
  List.map N_of_ascii (list_ascii_of_string s).
Arguments lit _%_string.

Module Py.

(** ** The [str] methods the pipeline uses *)

Definition str_eqb (a b : str) : bool := bool_decide (a = b).

(** [s.startswith(p)] *)
Fixpoint startswith (p s : str) : bool :=
  match p, s with
  | [], _ => true
  | _ :: _, [] => false
  | a :: p', b :: s' => N.eqb a b && startswith p' s'
  end.

(** [s.endswith(x)] *)
Definition endswith (x s : str) : bool := startswith (rev x) (rev s).

(** [key in s] *)
Fixpoint contains (key s : str) : bool :=
  match s with
  | [] => startswith key []
  | _ :: s' => startswith key s || contains key s'
  end.

(** [s.replace(old, new)] for a non-empty [old]: scan from the left; at
    an occurrence emit [new] and skip the rest of the occurrence
    ([skip] counts the code points still to be dropped). *)
Fixpoint replace_go (old new : str) (skip : nat) (s : str) : str :=
  match s with
  | [] => []
  | c :: s' =>
      match skip with
      | S k => replace_go old new k s'
      | O => if startswith old s
             then new ++ replace_go old new (length old - 1) s'
             else c :: replace_go old new 0 s'
      end
  end.

(** [s.replace(old, new)]: every non-overlapping occurrence, leftmost
    first; an empty [old] matches before every code point and at the
    end. *)
Definition replace (old new s : str) : str :=
  match old with
  | [] => new ++ flat_map (fun c => c :: new) s
  | _ :: _ => replace_go old new 0 s
  end.

(** [s.split(sep)] for a one-character separator: always at least one
    piece. *)
Fixpoint split (sep : N) (s : str) : list str :=
  match s with
  | [] => [[]]
  | c :: s' =>
      if N.eqb c sep then [] :: split sep s'
      else match split sep s' with
           | [] => [[c]]
           | piece :: rest => (c :: piece) :: rest
           end
  end.

(** [sep.join(parts)] *)
Fixpoint join (sep : str) (parts : list str) : str :=
  match parts with
  | [] => []
  | [p] => p
  | p :: rest => p ++ sep ++ join sep rest
  end.

(** [str.isspace] on one code point: the characters [str.strip()]
    removes. *)
Definition isspace (c : N) : bool :=
  ((9 <=? c) && (c <=? 13) || (28 <=? c) && (c <=? 32)
   || (c =? 133) || (c =? 160) || (c =? 5760)
   || (8192 <=? c) && (c <=? 8202)
   || (c =? 8232) || (c =? 8233) || (c =? 8239) || (c =? 8287)
   || (c =? 12288))%N.

Fixpoint lstrip (s : str) : str :=
  match s with
  | [] => []
  | c :: s' => if isspace c then lstrip s' else s
  end.

Definition rstrip (s : str) : str := rev (lstrip (rev s)).

(** [s.strip()] *)
Definition strip (s : str) : str := rstrip (lstrip s).

(** [s[:-1]] *)
Definition drop_last (s : str) : str := removelast s.

End Py.

(** ** The fragment of Python's [re] that [Styler.matched] uses *)

Module Re.

Inductive regex : Type :=
| Eps                          (* the empty pattern *)
| Bol                          (* [^]: only at position 0 (no MULTILINE) *)
| Eol                          (* [$]: at the end, or before a final newline *)
| Chr (c : N)                  (* an escaped literal character *)
| Dot                          (* [.]: any character but newline (no DOTALL) *)
| Star (r : regex)             (* [r*] *)
| Seq (r1 r2 : regex)
| Alt (r1 r2 : regex).

Definition newline : N := 10.

(** A matching state: the position reached and the text still ahead. *)
Definition mstate : Type := nat * str.

Definition at_eol (rest : str) : bool :=
  match rest with
  | [] => true
  | [c] => N.eqb c newline
  | _ => false
  end.

(** Zero or more rounds of [step], each consuming at least one
    character; [fuel] bounds the number of rounds by the text ahead. *)
Fixpoint star (step : mstate -> list mstate) (fuel : nat) (st : mstate)
    : list mstate :=
  st :: match fuel with
        | O => []
        | S f => flat_map (fun st' => if Nat.ltb (fst st) (fst st')
                                      then star step f st' else [])
                          (step st)
        end.

(** [ends r st]: every state in which a match of [r] begun in [st] can
    end.  Backtracking explores exactly these, so a match exists iff the
    list is not empty. *)
Fixpoint ends (r : regex) (st : mstate) : list mstate :=
  match r with
  | Eps => [st]
  | Bol => if Nat.eqb (fst st) 0 then [st] else []
  | Eol => if at_eol (snd st) then [st] else []
  | Chr c =>
      match snd st with
      | d :: rest => if N.eqb c d then [(S (fst st), rest)] else []
      | [] => []
      end
  | Dot =>
      match snd st with
      | d :: rest => if N.eqb d newline then [] else [(S (fst st), rest)]
      | [] => []
      end
  | Star r1 => star (ends r1) (length (snd st)) st
  | Seq r1 r2 => flat_map (ends r2) (ends r1 st)
  | Alt r1 r2 => ends r1 st ++ ends r2 st
  end.

(** [re.escape(s)]: the pattern matching [s] literally. *)
Fixpoint escape (s : str) : regex :=
  match s with
  | [] => Eps
  | c :: s' => Seq (Chr c) (escape s')
  end.

(** [re.match(r, s)]: a match anchored at position 0, as a truth value. *)
Definition match_ (r : regex) (s : str) : bool :=
  match ends r (0, s) with
  | [] => false
  | _ :: _ => true
  end.

End Re.

Definition plus : N := 43.     (* "+" *)
Definition slash : N := 47.    (* "/" *)
Definition period : N := 46.   (* "." *)
Definition qmark : N := 63.    (* "?" *)
Definition bang : N := 33.     (* "!" *)
Definition space : N := 32.    (* " " *)
Definition bar : N := 124.     (* "|" *)

(** [Styler.matched]:
    [re.match(f"(^|.*\\+){re.escape(pattern)}(\\+.*|$)", string)] *)
Definition matched (pattern string : str) : bool :=
  Re.match_
    (Re.Seq (Re.Alt Re.Bol (Re.Seq (Re.Star Re.Dot) (Re.Chr plus)))
       (Re.Seq (Re.escape pattern)
          (Re.Alt (Re.Seq (Re.Chr plus) (Re.Star Re.Dot)) Re.Eol)))
    string.

(** ** Data model *)

(** A morpheme of the khaiii analyzer; [str(morph)] is ["lex/tag"]. *)
Record KhaiiiMorph : Type := { morph_lex : str; tag : str }.

Definition morph_str (m : KhaiiiMorph) : str := morph_lex m ++ [slash] ++ tag m.

(** A token (word) of the analyzer: its surface form and its morphemes. *)
Record KhaiiiWord : Type := { lex : str; morphs : list KhaiiiMorph }.

(** A dict, in insertion order. *)
Abbreviation dict K V := (list (K * V)) (only parsing).

(** [d[k]], [None] when the key is missing. *)
Fixpoint dict_get {K V : Type} `{EqDecision K} (k : K) (d : dict K V) : option V :=
  match d with
  | [] => None
  | (k', v) :: d' => if decide (k = k') then Some v else dict_get k d'
  end.

(** One entry of the politeness rules: [{'politeness': ..., 'reason': ...}]. *)
Record Case : Type := { politeness : Z; reason : str }.

(** The four rule tables, fetched once when the class is created. *)
Record Tables : Type := {
  RULES : dict str (dict str Case);
  HONORIFICS : dict str (dict Z str);
  ABBREVIATIONS : dict str str;
  IRREGULARS : dict str str
}.

(** The key a [KeyError] carries. *)
Inductive key : Type :=
| KStr (s : str)
| KInt (z : Z).

(** The exceptions a run can end with. *)
Inductive exn : Type :=
| EFNotIncludedError (msg : str)
| EFNotSupportedError (ef : str)
| KeyError (k : key)
| TypeError
| KhaiiiExcept (msg : str).

(** [KhaiiiApi.analyze]: supplied from outside; it may raise. *)
Definition KhaiiiApi : Type := str -> exn + list KhaiiiWord.

(** What [self.out] and the entries of [self.logs] can hold. *)
Inductive value : Type :=
| VNone
| VStr (s : str)
| VTokens (tokens : list KhaiiiWord).

(** The joined signature of a token: ["+".join(map(str, token.morphs))]. *)
Definition signature (token : KhaiiiWord) : str :=
  Py.join [plus] (map morph_str (morphs token)).

(** [piece.split("/")[0]] *)
Definition surface (piece : str) : str := hd [] (Py.split slash piece).

(** ** Methods mutate the object and may raise: a state and error monad *)

Definition M (S A : Type) : Type := S -> (exn + A) * S.

#[global] Instance M_ret (S : Type) : MRet (M S) :=
  fun A a st => (inr a, st).

#[global] Instance M_bind (S : Type) : MBind (M S) :=
  fun A B f m st =>
    match m st with
    | (inl e, st') => (inl e, st')
    | (inr a, st') => f a st'
    end.

Definition raise {S A : Type} (e : exn) : M S A := fun st => (inl e, st).
Definition get {S : Type} : M S S := fun st => (inr st, st).
Definition modify {S : Type} (f : S -> S) : M S unit := fun st => (inr tt, f st).

(** [d[k]] inside a method: [KeyError(k)] when missing. *)
Definition subscript {S K V : Type} `{EqDecision K} (inj : K -> key)
    (d : dict K V) (k : K) : M S V :=
  match dict_get k d with
  | Some v => mret v
  | None => raise (KeyError (inj k))
  end.

(** [for x in l: body(x)] *)
Fixpoint for_ {S A : Type} (l : list A) (body : A -> M S unit) : M S unit :=
  match l with
  | [] => mret tt
  | x :: l' => body x ;; for_ l' body
  end.

(** A loop that also updates a local variable. *)
Fixpoint for_acc {S A B : Type} (l : list A) (b : B) (body : B -> A -> M S B) : M S B :=
  match l with
  | [] => mret b
  | x :: l' => b' ← body b x; for_acc l' b' body
  end.

(** ** [politely.processors.Styler] *)

Module Styler.

(** [self.args] after [self.args.update(locals())]. *)
Record Args : Type := { sent : str; listener : str; environ : str }.

(** The instance: its fields live across calls. *)
Record t : Type := mk {
  args : option Args;
  out : value;
  logs : list value;
  history_conjugations : gset (str * str);
  history_abbreviations : gset (str * str);
  history_irregulars : gset (str * str)
}.

(** [Styler()] *)
Definition init : t := mk None VNone [] ∅ ∅ ∅.

Definition set_args (a : Args) (st : t) : t :=
  mk (Some a) (out st) (logs st) (history_conjugations st)
     (history_abbreviations st) (history_irregulars st).

Definition set_out (v : value) (st : t) : t :=
  mk (args st) v (logs st) (history_conjugations st)
     (history_abbreviations st) (history_irregulars st).

Definition add_conjugation (p : str * str) (st : t) : t :=
  mk (args st) (out st) (logs st) ({[p]} ∪ history_conjugations st)
     (history_abbreviations st) (history_irregulars st).

Definition add_abbreviation (p : str * str) (st : t) : t :=
  mk (args st) (out st) (logs st) (history_conjugations st)
     ({[p]} ∪ history_abbreviations st) (history_irregulars st).

Definition add_irregular (p : str * str) (st : t) : t :=
  mk (args st) (out st) (logs st) (history_conjugations st)
     (history_abbreviations st) ({[p]} ∪ history_irregulars st).

(** [self.args[name]] *)
Definition arg (name : str) (field : Args -> str) : M t str :=
  st ← get;
  match args st with
  | Some a => mret (field a)
  | None => raise (KeyError (KStr name))
  end.

(** [self.out], used as a string *)
Definition out_str : M t str :=
  st ← get;
  match out st with
  | VStr s => mret s
  | _ => raise TypeError
  end.

(** [self.out], used as the token list *)
Definition out_tokens : M t (list KhaiiiWord) :=
  st ← get;
  match out st with
  | VTokens tokens => mret tokens
  | _ => raise TypeError
  end.

Section Methods.
Context (T : Tables) (khaiii : KhaiiiApi).

Definition clear : M t unit :=
  modify (fun st => mk (args st) (out st) [] ∅ ∅ ∅).

Definition log : M t unit :=
  modify (fun st => mk (args st) (out st) (logs st ++ [out st])
                       (history_conjugations st) (history_abbreviations st)
                       (history_irregulars st)).

(** The text [preprocess] stores, from the stripped sentence. *)
Definition punctuate (out : str) : str :=
  if negb (Py.endswith [qmark] out) && negb (Py.endswith [bang] out)
  then (if negb (Py.endswith [period] out) then out ++ [period] else out)
  else out.

Definition preprocess : M t unit :=
  sent ← arg (lit "sent") sent;
  modify (set_out (VStr (punctuate (Py.strip sent)))).

Definition analyze : M t unit :=
  text ← out_str;
  match khaiii text with
  | inl e => raise e
  | inr tokens => modify (set_out (VTokens tokens))
  end.

(** The [for pattern ...: if matched: break / else: raise] loop of [check]. *)
Definition supported (ef : str) : bool :=
  existsb (fun pattern => matched pattern ef) (map fst (HONORIFICS T)).

Definition check : M t unit :=
  tokens ← out_tokens;
  let efs := filter (fun sig => Py.contains (lit "EF") sig = true)
                    (map signature tokens) in
  match efs with
  | [] => raise (EFNotIncludedError (Py.join [bar] (map signature tokens)))
  | _ :: _ =>
      for_ efs (fun ef =>
        if supported ef then mret tt else raise (EFNotSupportedError ef))
  end.

(** The inner loop of [conjugate] over the honorific table, for one
    working string [tuned]. *)
Definition conjugate_step (politeness : Z) (tuned : str)
    (entry : str * dict Z str) : M t str :=
  let '(pattern, levels) := entry in
  if matched pattern tuned then
    honorific ← subscript KInt levels politeness;
    modify (add_conjugation (pattern, honorific)) ;;
    mret (Py.replace pattern honorific tuned)
  else mret tuned.

(** The surface of a joined signature: the part before ["/"] of every
    ["+"]-separated piece, concatenated. *)
Definition surfaces (pieces : list str) : str := concat (map surface pieces).

(** The body of the outer loop of [conjugate], for one token. *)
Definition conjugate_token (politeness : Z) (out : list str)
    (token : str * list str) : M t (list str) :=
  let '(lex, morphs) := token in
  tuned ← for_acc (HONORIFICS T) (Py.join [plus] morphs) (conjugate_step politeness);
  let before := surfaces morphs in
  let after := surfaces (Py.split plus tuned) in
  mret (out ++ [if bool_decide (before ≠ after) then after else lex]).

Definition conjugate : M t unit :=
  listener ← arg (lit "listener") listener;
  by_environ ← subscript KStr (RULES T) listener;
  environ ← arg (lit "environ") environ;
  case ← subscript KStr by_environ environ;
  let politeness := politeness case in
  tokens ← out_tokens;
  let lex2morphs := map (fun token => (lex token, map morph_str (morphs token))) tokens in
  out ← for_acc lex2morphs [] (conjugate_token politeness);
  modify (set_out (VStr (Py.join [space] out))).

(** One rule of a cleanup stage, recording with [add]. *)
Definition cleanup_step (add : str * str -> t -> t) (rule : str * str) : M t unit :=
  let '(key, val) := rule in
  text ← out_str;
  if Py.contains key text then
    modify (set_out (VStr (Py.replace key val text))) ;;
    modify (add (key, val))
  else mret tt.

Definition abbreviate : M t unit :=
  for_ (ABBREVIATIONS T) (cleanup_step add_abbreviation).

Definition apply_irregulars : M t unit :=
  for_ (IRREGULARS T) (cleanup_step add_irregular).

(** [Styler.__call__] *)
Definition call (sent listener environ : str) : M t value :=
  modify (set_args {| sent := sent; listener := listener; environ := environ |}) ;;
  clear ;;
  preprocess ;;
  analyze ;;
  check ;;
  log ;;
  conjugate ;;
  log ;;
  abbreviate ;;
  log ;;
  apply_irregulars ;;
  log ;;
  st ← get;
  mret (out st).

End Methods.
End Styler.

(** ** [politetune.processors.Tuner], the older variant *)

Module Tuner.

Record t : Type := mk {
  sent : option str;
  listener : option str;
  visibility : option str;
  out : value;
  logs : list value;
  history_honorifics : gset (str * str);
  history_abbreviations : gset (str * str);
  history_irregulars : gset (str * str)
}.

(** [Tuner()] *)
Definition init : t := mk None None None VNone [] ∅ ∅ ∅.

Definition set_inputs (s l v : str) (st : t) : t :=
  mk (Some s) (Some l) (Some v) (out st) (logs st) (history_honorifics st)
     (history_abbreviations st) (history_irregulars st).

Definition set_out (v : value) (st : t) : t :=
  mk (sent st) (listener st) (visibility st) v (logs st) (history_honorifics st)
     (history_abbreviations st) (history_irregulars st).

Definition add_honorific (p : str * str) (st : t) : t :=
  mk (sent st) (listener st) (visibility st) (out st) (logs st)
     ({[p]} ∪ history_honorifics st) (history_abbreviations st)
     (history_irregulars st).

Definition add_abbreviation (p : str * str) (st : t) : t :=
  mk (sent st) (listener st) (visibility st) (out st) (logs st)
     (history_honorifics st) ({[p]} ∪ history_abbreviations st)
     (history_irregulars st).

Definition add_irregular (p : str * str) (st : t) : t :=
  mk (sent st) (listener st) (visibility st) (out st) (logs st)
     (history_honorifics st) (history_abbreviations st)
     ({[p]} ∪ history_irregulars st).

(** An [Optional[str]] field used as a string. *)
Definition field (f : t -> option str) : M t str :=
  st ← get;
  match f st with
  | Some s => mret s
  | None => raise TypeError
  end.

Definition out_str : M t str :=
  st ← get;
  match out st with
  | VStr s => mret s
  | _ => raise TypeError
  end.

Definition out_tokens : M t (list KhaiiiWord) :=
  st ← get;
  match out st with
  | VTokens tokens => mret tokens
  | _ => raise TypeError
  end.

(** [itertools.combinations(range(n + 1), 2)]: the pairs [i < j <= n],
    in lexicographic order. *)
Definition combinations2 (n : nat) : list (nat * nat) :=
  flat_map (fun i => map (fun j => (i, j)) (seq (S i) (n - i))) (seq 0 (S n)).

(** [l[i:j]] *)
Definition slice {A : Type} (l : list A) (i j : nat) : list A :=
  take (j - i) (drop i l).

Section Methods.
Context (T : Tables) (khaiii : KhaiiiApi).

Definition clear : M t unit :=
  modify (fun st => mk (sent st) (listener st) (visibility st) (out st) [] ∅ ∅ ∅).

Definition log : M t unit :=
  modify (fun st => mk (sent st) (listener st) (visibility st) (out st)
                       (logs st ++ [out st]) (history_honorifics st)
                       (history_abbreviations st) (history_irregulars st)).

Definition preprocess : M t unit :=
  sent ← field sent;
  modify (set_out (VStr (if negb (Py.endswith [period] sent)
                         then sent ++ [period] else sent))).

Definition analyze_morphemes : M t unit :=
  text ← out_str;
  match khaiii text with
  | inl e => raise e
  | inr tokens => modify (set_out (VTokens tokens))
  end.

(** The inner loop of [apply_honorifics]: every pattern is replaced and
    recorded, without a test. *)
Definition honorific_step (politeness : Z) (tuned : str)
    (entry : str * dict Z str) : M t str :=
  let '(pattern, levels) := entry in
  honorific ← subscript KInt levels politeness;
  modify (add_honorific (pattern, honorific)) ;;
  mret (Py.replace pattern honorific tuned).

(** [set(substrings) & set(self.HONORIFICS.keys())], as a truth value. *)
Definition some_span_is_key (morphs : list str) : bool :=
  let substrings :=
    map (fun '(i, j) => Py.join [plus] (slice morphs i j))
        (combinations2 (length morphs)) in
  existsb (fun sub => bool_decide (sub ∈ map fst (HONORIFICS T))) substrings.

Definition honorifics_token (politeness : Z) (out : list str)
    (token : str * list str) : M t (list str) :=
  let '(lex, morphs) := token in
  if some_span_is_key morphs then
    tuned ← for_acc (HONORIFICS T) (Py.join [plus] morphs) (honorific_step politeness);
    let tuned := concat (map surface (Py.split plus tuned)) in
    mret (out ++ [tuned])
  else mret (out ++ [lex]).

Definition apply_honorifics : M t unit :=
  listener ← field listener;
  by_visibility ← subscript KStr (RULES T) listener;
  visibility ← field visibility;
  case ← subscript KStr by_visibility visibility;
  let politeness := politeness case in
  tokens ← out_tokens;
  let lexicon2morphs :=
    map (fun token => (lex token, map morph_str (morphs token))) tokens in
  out ← for_acc lexicon2morphs [] (honorifics_token politeness);
  modify (set_out (VStr (Py.join [space] out))).

Definition cleanup_step (add : str * str -> t -> t) (rule : str * str) : M t unit :=
  let '(key, val) := rule in
  text ← out_str;
  if Py.contains key text then
    modify (set_out (VStr (Py.replace key val text))) ;;
    modify (add (key, val))
  else mret tt.

Definition apply_abbreviations : M t unit :=
  for_ (ABBREVIATIONS T) (cleanup_step add_abbreviation).

Definition apply_irregulars : M t unit :=
  for_ (IRREGULARS T) (cleanup_step add_irregular).

Definition postprocess : M t unit :=
  sent ← field sent;
  text ← out_str;
  modify (set_out (VStr (if Py.endswith [period] sent then text
                         else Py.drop_last text))).

Definition steps : list (M t unit) :=
  [ clear; preprocess; analyze_morphemes; log; apply_honorifics; log;
    apply_abbreviations; log; apply_irregulars; log; postprocess ].

(** [Tuner.__call__] *)
Definition call (sent listener visibility : str) : M t value :=
  modify (set_inputs sent listener visibility) ;;
  for_ steps (fun step => step) ;;
  st ← get;
  mret (out st).

End Methods.
End Tuner.

(** ** [politetune.processors.Explainer] *)

Module Explainer.

(** What [Explainer.__call__] can end with: a [KeyError] on a listener or
    visibility that may be [None], an [IndexError] on [logs], or a value
    of the wrong kind in [logs]. *)
Inductive error : Type :=
| KeyError (k : option str)
| IndexError
| TypeError.

Definition nl : str := [10%N].
Definition arrow : str := [space; 8594%N; space].    (* " → " *)

(** The keycap digits of the headings: the digit, U+FE0F, U+20E3. *)
Definition keycap (digit : String.string) : str := lit digit ++ [65039%N; 8419%N].
Arguments keycap _%_string.

(** [f"`{s}`"] *)
Definition quoted (s : str) : str := [96%N] ++ s ++ [96%N].

(** [f"{x}"] for an [Optional[str]] *)
Definition format_opt (o : option str) : str :=
  match o with
  | Some s => s
  | None => lit "None"
  end.

Definition ebind {A B : Type} (m : error + A) (f : A → error + B) : error + B :=
  match m with
  | inl e => inl e
  | inr a => f a
  end.

(** [d[k]] for a key that may be [None] *)
Definition subscript {V : Type} (d : dict str V) (k : option str) : error + V :=
  match k with
  | Some s => match dict_get s d with
              | Some v => inr v
              | None => inl (KeyError k)
              end
  | None => inl (KeyError None)
  end.

(** [self.tuner.logs[i]] *)
Definition log_at (tuner : Tuner.t) (i : nat) : error + value :=
  match Tuner.logs tuner !! i with
  | Some v => inr v
  | None => inl IndexError
  end.

Definition as_str (v : value) : error + str :=
  match v with
  | VStr s => inr s
  | _ => inl TypeError
  end.

Definition as_tokens (v : value) : error + list KhaiiiWord :=
  match v with
  | VTokens tokens => inr tokens
  | _ => inl TypeError
  end.

(** [for key, val in pairs: before = before.replace(key, f"`{key}`");
    after = after.replace(val, f"`{val}`")] *)
Definition highlight (pairs : list (str * str)) (before after : str) : str * str :=
  fold_left (λ ba kv, (Py.replace kv.1 (quoted kv.1) ba.1,
                       Py.replace kv.2 (quoted kv.2) ba.2))
            pairs (before, after).

Definition politeness_name (politeness : Z) : str :=
  if Z.eqb politeness 1 then lit "intimate style (Banmal)"
  else if Z.eqb politeness 2 then lit "polite style (Banmal)"
  else lit "formal style".

Section Call.
(** [iter] is the order in which Python goes through a set. *)
Context (T : Tables) (iter : gset (str * str) → list (str * str)).

Definition msg_1 (tuner : Tuner.t) : error + str :=
  ebind (subscript (RULES T) (Tuner.listener tuner)) (λ by_visibility,
  ebind (subscript by_visibility (Tuner.visibility tuner)) (λ case,
  inr (lit "### " ++ keycap "1" ++ lit " Determine the level of politeness"
       ++ nl ++ lit "You should speak in `" ++ politeness_name (politeness case)
       ++ lit "`."
       ++ nl ++ nl ++ lit " Why? " ++ reason case))).

Definition analyzed (tokens : list KhaiiiWord) : str :=
  concat (map (λ token, concat (map morph_str (morphs token))) tokens).

Definition msg_2 (tuner : Tuner.t) : error + str :=
  ebind (log_at tuner 0) (λ v, ebind (as_tokens v) (λ tokens,
  inr (lit "### " ++ keycap "2" ++ lit " Analyze morphemes"
       ++ nl ++ format_opt (Tuner.sent tuner) ++ arrow ++ analyzed tokens))).

Definition msg_3 (tuner : Tuner.t) : error + str :=
  ebind (log_at tuner 0) (λ v, ebind (as_tokens v) (λ tokens,
  ebind (log_at tuner 1) (λ v, ebind (as_str v) (λ after,
  let ba := highlight (iter (Tuner.history_honorifics tuner))
                      (analyzed tokens) after in
  inr (lit "### " ++ keycap "3" ++ lit " Apply honorifics"
       ++ nl ++ ba.1 ++ arrow ++ ba.2))))).

(** A step with a history set of its own: steps 4 and 5. *)
Definition msg_with (heading none : str) (history : gset (str * str))
    (tuner : Tuner.t) (i : nat) : error + str :=
  if bool_decide (history ≠ ∅) then
    ebind (log_at tuner i) (λ v, ebind (as_str v) (λ before,
    ebind (log_at tuner (S i)) (λ v, ebind (as_str v) (λ after,
    let ba := highlight (iter history) before after in
    inr (heading ++ nl ++ ba.1 ++ arrow ++ ba.2)))))
  else inr (heading ++ nl ++ none).

Definition msg_4 (tuner : Tuner.t) : error + str :=
  msg_with (lit "### " ++ keycap "4" ++ lit " Apply abbreviations")
           (lit "No abbreviation rules were applied.")
           (Tuner.history_abbreviations tuner) tuner 1.

Definition msg_5 (tuner : Tuner.t) : error + str :=
  msg_with (lit "### " ++ keycap "5" ++ lit " Apply irregular conjugations")
           (lit "No conjugation rules were applied.")
           (Tuner.history_irregulars tuner) tuner 2.

(** [Explainer.__call__]: what was printed, and the five messages or
    the error. *)
Definition call (tuner : Tuner.t) : list (gset (str * str)) * (error + list str) :=
  match ebind (msg_1 tuner) (λ m1, ebind (msg_2 tuner) (λ m2,
        ebind (msg_3 tuner) (λ m3, ebind (msg_4 tuner) (λ m4,
        inr [m1; m2; m3; m4])))) with
  | inl e => ([], inl e)
  | inr msgs =>
      (if bool_decide (Tuner.history_irregulars tuner ≠ ∅)
       then [Tuner.history_irregulars tuner] else [],
       ebind (msg_5 tuner) (λ m5, inr (msgs ++ [m5])))
  end.

End Call.
End Explainer.

(** What the specification says a match is: the pattern occurs in the
    joined signature, starting at the beginning or right after a ["+"],
    and ending at the end or right before a ["+"]. *)
Definition anchored (pattern sig : str) : Prop :=
  ∃ pre post, sig = pre ++ pattern ++ post
    ∧ (pre = [] ∨ ∃ pre', pre = pre' ++ [plus])
    ∧ (post = [] ∨ ∃ post', post = plus :: post').

(** ** Specification-side definitions, stage models and sample data *)

(** [trimmed] is [s] without its surrounding whitespace. *)
Definition trim_of (s trimmed : str) : Prop :=
  ∃ ws1 ws2, s = ws1 ++ trimmed ++ ws2
    ∧ Forall (λ c, Py.isspace c = true) ws1
    ∧ Forall (λ c, Py.isspace c = true) ws2
    ∧ (∀ c, head trimmed = Some c → Py.isspace c = false)
    ∧ (∀ c, last trimmed = Some c → Py.isspace c = false).

(** The text handed to the analyzer for a (stripped) sentence, in the
    words of the specification. *)
Definition is_final_punctuation (c : N) : bool :=
  bool_decide (c = period ∨ c = qmark ∨ c = bang).

Definition ensure_final_punctuation (trimmed : str) : str :=
  match last trimmed with
  | Some c => if is_final_punctuation c then trimmed else trimmed ++ [period]
  | None => trimmed ++ [period]
  end.

(** One pass of a rule table over a text, as the specification words it:
    rules in table order, each applied to the current text when [test]
    accepts its key there.  The result is the text left and the set of
    pairs applied. *)
Fixpoint rule_pass (test : str → str → bool) (rules : dict str str) (text : str)
    : str * gset (str * str) :=
  match rules with
  | [] => (text, ∅)
  | (key, val) :: rules' =>
      if test key text
      then let r := rule_pass test rules' (Py.replace key val text) in
           (r.1, {[(key, val)]} ∪ r.2)
      else rule_pass test rules' text
  end.

(** A cleanup stage applies a rule when its key occurs in the text. *)
Definition cleanup_pass : dict str str → str → str * gset (str * str) :=
  rule_pass Py.contains.

Definition occurs_in (key text : str) : Prop :=
  ∃ pre post, text = pre ++ key ++ post.

Definition annyeonghaseyo : str := [50504; 45397; 54616; 49464; 50836]%N.
Definition annyonghaseyo : str := [50504; 45565; 54616; 49464; 50836]%N.

Definition greeting_only : Tables :=
  {| RULES := []; HONORIFICS := [];
     ABBREVIATIONS := [(annyeonghaseyo, annyonghaseyo)]; IRREGULARS := [] |}.

(** An earlier rule can take the key away before its rule is reached. *)
Definition greeting_shadowed : Tables :=
  {| RULES := []; HONORIFICS := [];
     ABBREVIATIONS := [([45397%N], lit "X"); (annyeonghaseyo, annyonghaseyo)];
     IRREGULARS := [] |}.

(** The conjugation loop applies a rule when [matched] accepts its key on
    the working string. *)
Definition honorific_pass : dict str str → str → str * gset (str * str) :=
  rule_pass matched.

(** The honorific table read at one politeness level:
    [HONORIFICS[pattern][politeness]] for every pattern, in table order. *)
Fixpoint at_level (politeness : Z) (table : dict str (dict Z str))
    : option (dict str str) :=
  match table with
  | [] => Some []
  | (pattern, levels) :: table' =>
      match dict_get politeness levels, at_level politeness table' with
      | Some honorific, Some rules => Some ((pattern, honorific) :: rules)
      | _, _ => None
      end
  end.

(** What the stage emits for one token. *)
Definition emit (rules : dict str str) (token : KhaiiiWord) : str :=
  let tuned := (honorific_pass rules (signature token)).1 in
  let before := Styler.surfaces (map morph_str (morphs token)) in
  let after := Styler.surfaces (Py.split plus tuned) in
  if bool_decide (before ≠ after) then after else lex token.

(** The pairs applied over all tokens. *)
Definition conjugation_pairs (rules : dict str str) (tokens : list KhaiiiWord)
    : gset (str * str) :=
  ⋃ map (λ token, (honorific_pass rules (signature token)).2) tokens.

Ltac unfold_monad :=
  cbv [mbind M_bind mret M_ret get modify raise subscript
       Styler.arg Styler.out_str Styler.out_tokens
       Styler.set_out Styler.set_args Styler.add_conjugation
       Styler.add_abbreviation Styler.add_irregular
       Styler.args Styler.out Styler.logs Styler.history_conjugations
       Styler.history_abbreviations Styler.history_irregulars].

(** A small romanised rule set and sentence, used to run the pipeline. *)
Definition demo : Tables :=
  {| RULES :=
       [ (lit "friend", [ (lit "private", {| politeness := 1; reason := lit "close" |});
                          (lit "public", {| politeness := 2; reason := lit "polite" |}) ]);
         (lit "boss", [ (lit "public", {| politeness := 3; reason := lit "formal" |}) ]) ];
     HONORIFICS :=
       [ (lit "a/EF", [ (1%Z, lit "a/EF"); (2%Z, lit "ayo/EF"); (3%Z, lit "mnida/EF") ]);
         (lit "ha/VV+ayo/EF", [ (1%Z, lit "ha/VV+a/EF"); (2%Z, lit "hae/VV+yo/EF");
                                (3%Z, lit "ha/VV+mnida/EF") ]) ];
     ABBREVIATIONS := [ (lit "naneun", lit "nan") ];
     IRREGULARS := [ (lit "haa", lit "hae") ] |}.

Definition demo_morph (l t : String.string) : KhaiiiMorph :=
  {| morph_lex := lit l; tag := lit t |}.
Arguments demo_morph (l t)%_string.

(** "naneun gongbu hae." *)
Definition demo_tokens : list KhaiiiWord :=
  [ {| lex := lit "naneun"; morphs := [demo_morph "na" "NP"; demo_morph "neun" "JX"] |};
    {| lex := lit "gongbu"; morphs := [demo_morph "gongbu" "NNG"] |};
    {| lex := lit "hae."; morphs := [demo_morph "ha" "VV"; demo_morph "a" "EF";
                                     demo_morph "." "SF"] |} ].

Definition demo_khaiii : KhaiiiApi := λ _, inr demo_tokens.

Definition demo_args : Styler.Args :=
  {| Styler.sent := lit " naneun gongbu hae";
     Styler.listener := lit "friend"; Styler.environ := lit "public" |}.

Definition demo_rules : dict str str :=
  [ (lit "a/EF", lit "ayo/EF"); (lit "ha/VV+ayo/EF", lit "hae/VV+yo/EF") ].

(** The joined signatures [check] looks at: those containing ["EF"]
    somewhere, surface or tag. *)
Definition efs_of (tokens : list KhaiiiWord) : list str :=
  filter (λ sig, Py.contains (lit "EF") sig = true) (map signature tokens).

(** The outcome of [check] on a token list. *)
Definition check_outcome (T : Tables) (tokens : list KhaiiiWord) : exn + unit :=
  match efs_of tokens with
  | [] => inl (EFNotIncludedError (Py.join [bar] (map signature tokens)))
  | _ :: _ =>
      match List.find (λ ef, negb (Styler.supported T ef)) (efs_of tokens) with
      | Some ef => inl (EFNotSupportedError ef)
      | None => inr tt
      end
  end.

(** Two instance states that differ at most in [history_conjugations]. *)
Definition only_conjugations (st st' : Styler.t) : Prop :=
  Styler.args st' = Styler.args st ∧ Styler.out st' = Styler.out st
  ∧ Styler.logs st' = Styler.logs st
  ∧ Styler.history_abbreviations st' = Styler.history_abbreviations st
  ∧ Styler.history_irregulars st' = Styler.history_irregulars st.

(** The steps of [__call__] after [preprocess]. *)
Definition pipeline (T : Tables) (khaiii : KhaiiiApi) : M Styler.t value :=
  Styler.analyze khaiii ;;
  Styler.check T ;;
  Styler.log ;;
  Styler.conjugate T ;;
  Styler.log ;;
  Styler.abbreviate T ;;
  Styler.log ;;
  Styler.apply_irregulars T ;;
  Styler.log ;;
  st ← get;
  mret (Styler.out st).

(** The instance as [clear] and [preprocess] leave it: nothing of an
    earlier call is left. *)
Definition preprocessed (sent listener environ : str) : Styler.t :=
  Styler.mk (Some {| Styler.sent := sent; Styler.listener := listener;
                     Styler.environ := environ |})
            (VStr (Styler.punctuate (Py.strip sent))) [] ∅ ∅ ∅.

(** The instance when [conjugate] starts: analysed, validated, logged
    once. *)
Definition validated (sent listener environ : str) (tokens : list KhaiiiWord)
    : Styler.t :=
  Styler.mk (Some {| Styler.sent := sent; Styler.listener := listener;
                     Styler.environ := environ |})
            (VTokens tokens) [VTokens tokens] ∅ ∅ ∅.


(** "UNICEF.": a foreign word and a full stop; no morpheme is tagged
    [EF]. *)
Definition unicef_tokens : list KhaiiiWord :=
  [ {| lex := lit "UNICEF.";
       morphs := [demo_morph "UNICEF" "SL"; demo_morph "." "SF"] |} ].

(** "1+1": the plus sign is a morpheme of its own. *)
Definition sum_tokens : list KhaiiiWord :=
  [ {| lex := lit "1+1";
       morphs := [demo_morph "1" "SN"; demo_morph "+" "SW"; demo_morph "1" "SN"] |} ].

Ltac unfold_tuner :=
  cbv [mbind M_bind mret M_ret get modify raise subscript
       Tuner.field Tuner.out_str Tuner.out_tokens
       Tuner.set_out Tuner.set_inputs Tuner.add_honorific
       Tuner.add_abbreviation Tuner.add_irregular
       Tuner.sent Tuner.listener Tuner.visibility
       Tuner.out Tuner.logs Tuner.history_honorifics
       Tuner.history_abbreviations Tuner.history_irregulars].

(** Two [Tuner] states that differ at most in [history_honorifics]. *)
Definition only_honorifics (st st' : Tuner.t) : Prop :=
  Tuner.sent st' = Tuner.sent st ∧ Tuner.listener st' = Tuner.listener st
  ∧ Tuner.visibility st' = Tuner.visibility st
  ∧ Tuner.out st' = Tuner.out st ∧ Tuner.logs st' = Tuner.logs st
  ∧ Tuner.history_abbreviations st' = Tuner.history_abbreviations st
  ∧ Tuner.history_irregulars st' = Tuner.history_irregulars st.

(** The text [Tuner.preprocess] hands to the analyzer. *)
Definition tuner_preprocessed (sent : str) : str :=
  if negb (Py.endswith [period] sent) then sent ++ [period] else sent.

(** The steps of [Tuner.__call__] after [preprocess]. *)
Definition tuner_pipeline (T : Tables) (khaiii : KhaiiiApi) : M Tuner.t value :=
  for_ [ Tuner.analyze_morphemes khaiii; Tuner.log; Tuner.apply_honorifics T;
         Tuner.log; Tuner.apply_abbreviations T; Tuner.log;
         Tuner.apply_irregulars T; Tuner.log; Tuner.postprocess ]
       (λ step, step) ;;
  st ← get;
  mret (Tuner.out st).

(** The demo rules with an irregular rule that eats the final period. *)
Definition tuner_demo : Tables :=
  {| RULES := RULES demo; HONORIFICS := HONORIFICS demo;
     ABBREVIATIONS := ABBREVIATIONS demo;
     IRREGULARS := [ (lit "yo.", lit "yo") ] |}.

(** The demo rules with the second pattern left undefined at level 2. *)
Definition demo_gap : Tables :=
  {| RULES := RULES demo;
     HONORIFICS :=
       [ (lit "a/EF", [ (1%Z, lit "a/EF"); (2%Z, lit "ayo/EF") ]);
         (lit "ha/VV+ayo/EF", [ (1%Z, lit "ha/VV+a/EF") ]) ];
     ABBREVIATIONS := []; IRREGULARS := [] |}.

Definition demo_verb : KhaiiiWord :=
  {| lex := lit "hae."; morphs := [demo_morph "ha" "VV"; demo_morph "a" "EF";
                                   demo_morph "." "SF"] |}.

(** Every recorded conjugation pair is a pattern of the honorific table
    with one of its replacements. *)
Definition conjugations_from_table (T : Tables) (st : Styler.t) : Prop :=
  ∀ pattern honorific,
    (pattern, honorific) ∈ Styler.history_conjugations st →
    ∃ levels politeness,
      (pattern, levels) ∈ HONORIFICS T ∧ dict_get politeness levels = Some honorific.

(** Every rule applied in table order, whether its pattern occurs or
    not. *)
Definition replace_all (rules : dict str str) (tuned : str) : str :=
  fold_left (λ t rule, Py.replace rule.1 rule.2 t) rules tuned.

(** What the older variant emits for one token. *)
Definition tuner_emit (T : Tables) (rules : dict str str) (token : KhaiiiWord) : str :=
  let morphs := map morph_str (morphs token) in
  if Tuner.some_span_is_key T morphs
  then Styler.surfaces (Py.split plus (replace_all rules (Py.join [plus] morphs)))
  else lex token.

Definition has_span_key (T : Tables) (token : KhaiiiWord) : bool :=
  Tuner.some_span_is_key T (map morph_str (morphs token)).

(** The demo table with a pattern that occurs in no sentence. *)
Definition demo_unused : Tables :=
  {| RULES := RULES demo;
     HONORIFICS := HONORIFICS demo
                   ++ [ (lit "sida/EF", [ (2%Z, lit "seyo/EF") ]) ];
     ABBREVIATIONS := []; IRREGULARS := [] |}.

(** An instance as a run leaves it, with one irregular pair applied. *)
Definition explained_demo : Tuner.t :=
  Tuner.mk (Some (lit "hae")) (Some (lit "friend")) (Some (lit "public"))
    (VStr (lit "haey"))
    [VTokens [demo_verb]; VStr (lit "haeyo."); VStr (lit "haeyo."); VStr (lit "haeyo")]
    {[ (lit "a/EF", lit "ayo/EF") ]} ∅ {[ (lit "yo.", lit "yo") ]}.

(** The inner loop of [Styler.conjugate] on one working string, without
    the instance: the string left and the pairs applied, in the order of
    application.  The level is looked up only for a key that matches;
    [None] stands for the [KeyError] of a matching key without a
    replacement at the level. *)
Fixpoint conjugate_pass (politeness : Z) (table : dict str (dict Z str))
    (tuned : str) : option (str * list (str * str)) :=
  match table with
  | [] => Some (tuned, [])
  | (pattern, levels) :: table' =>
      if matched pattern tuned then
        match dict_get politeness levels with
        | Some honorific =>
            match conjugate_pass politeness table' (Py.replace pattern honorific tuned) with
            | Some (out, applied) => Some (out, (pattern, honorific) :: applied)
            | None => None
            end
        | None => None
        end
      else conjugate_pass politeness table' tuned
  end.

(** What [Styler.conjugate] emits for a token whose working string ended
    as [tuned]. *)
Definition emit_tuned (token : KhaiiiWord) (tuned : str) : str :=
  let before := Styler.surfaces (map morph_str (morphs token)) in
  let after := Styler.surfaces (Py.split plus tuned) in
  if bool_decide (before ≠ after) then after else lex token.

(** The demo table with a pattern that occurs in no sentence and has no
    replacement at level 2. *)
Definition demo_partial : Tables :=
  {| RULES := RULES demo;
     HONORIFICS := HONORIFICS demo
                   ++ [ (lit "sida/EF", [ (1%Z, lit "sida/EF") ]) ];
     ABBREVIATIONS := []; IRREGULARS := [] |}.

(** The text the older variant hands to the analyzer, in words: the
    sentence as given, with ["."] appended unless it ends with ["."]. *)
Definition ensure_final_period (sent : str) : str :=
  match last sent with
  | Some c => if bool_decide (c = period) then sent else sent ++ [period]
  | None => sent ++ [period]
  end.

(** * Properties *)

(** ** The string methods *)

Lemma startswith_spec (p s : str) :
  Py.startswith p s = true ↔ ∃ rest, s = p ++ rest.
Proof.
  revert s; induction p as [|a p IH]; intros s; simpl.
  - split; [eauto | done].
  - destruct s as [|b s]; [split; [done | intros [? ?]; done] |].
    rewrite andb_true_iff, N.eqb_eq, IH. split.
    + intros [-> [rest ->]]. eauto.
    + intros [rest [= -> ->]]. eauto.
Qed.

Lemma startswith_app (p rest : str) : Py.startswith p (p ++ rest) = true.
Proof. apply startswith_spec; eauto. Qed.

Lemma endswith_spec (x s : str) :
  Py.endswith x s = true ↔ ∃ front, s = front ++ x.
Proof.
  unfold Py.endswith. rewrite startswith_spec. split.
  - intros [rest H]. exists (rev rest).
    apply (f_equal (@rev N)) in H. rewrite rev_involutive in H.
    rewrite H, rev_app_distr, rev_involutive. done.
  - intros [front ->]. exists (rev front). by rewrite rev_app_distr.
Qed.

Lemma contains_spec (key s : str) :
  Py.contains key s = true ↔ ∃ pre post, s = pre ++ key ++ post.
Proof.
  induction s as [|c s IH]; simpl.
  - rewrite startswith_spec. split.
    + intros [rest H]. exists [], rest. done.
    + intros (pre & post & H). symmetry in H.
      apply app_eq_nil in H as [-> H]. apply app_eq_nil in H as [-> ->].
      exists []. done.
  - rewrite orb_true_iff, startswith_spec, IH. split.
    + intros [[rest ->] | (pre & post & ->)].
      * exists [], rest. done.
      * exists (c :: pre), post. done.
    + intros (pre & post & H). destruct pre as [|d pre]; simpl in H.
      * left. eauto.
      * injection H as -> ->. right. eauto.
Qed.

(** ** The matcher *)

Section Matcher.
Import Re.

Lemma ends_escape (p : str) (i : nat) (s : str) (st : mstate) :
  In st (ends (escape p) (i, s)) ↔ ∃ rest, s = p ++ rest ∧ st = (i + length p, rest).
Proof.
  revert i s; induction p as [|c p IH]; intros i s; simpl.
  - split.
    + intros [<- | []]. exists s. by rewrite Nat.add_0_r.
    + intros (rest & -> & ->). left. by rewrite Nat.add_0_r.
  - rewrite in_flat_map. split.
    + intros (st1 & H1 & H2). destruct s as [|d s]; [done |].
      simpl in H1. destruct (N.eqb_spec c d) as [-> |]; [| done].
      destruct H1 as [<- | []]. apply IH in H2 as (rest & -> & ->).
      exists rest. split; [done | f_equal; lia].
    + intros (rest & -> & ->). exists (S i, p ++ rest). split.
      * simpl. rewrite N.eqb_refl. by left.
      * apply IH. exists rest. split; [done | f_equal; lia].
Qed.

Lemma ends_star_dot (fuel i : nat) (s : str) (st : mstate) :
  length s ≤ fuel →
  (In st (star (ends Dot) fuel (i, s)))
  ↔ ∃ mid rest, s = mid ++ rest ∧ (newline ∉ mid) ∧ st = (i + length mid, rest).
Proof.
  revert i s; induction fuel as [|f IH]; intros i s Hlen.
  - destruct s; [| simpl in Hlen; lia]. simpl. split.
    + intros [<- | []]. exists [], []. rewrite Nat.add_0_r.
      split_and!; [done | apply not_elem_of_nil | done].
    + intros (mid & rest & H & _ & ->). symmetry in H.
      apply app_eq_nil in H as [-> ->]. left. by rewrite Nat.add_0_r.
  - simpl. rewrite in_flat_map. split.
    + intros [<- | (st1 & H1 & H2)].
      * exists [], s. rewrite Nat.add_0_r.
        split_and!; [done | apply not_elem_of_nil | done].
      * destruct s as [|d s]; [done |]. simpl in H1.
        destruct (N.eqb_spec d newline) as [| Hd]; [done |].
        destruct H1 as [<- | []]. simpl in H2.
        replace (i <? S i)%nat with true in H2
          by (symmetry; apply Nat.ltb_lt; lia).
        apply IH in H2 as (mid & rest & -> & Hmid & ->);
          [| simpl in Hlen; lia].
        exists (d :: mid), rest. split_and!; [done | | simpl; f_equal; lia].
        intros [? | ?]%elem_of_cons; [by subst | done].
    + intros (mid & rest & -> & Hmid & ->). destruct mid as [|d mid].
      * left. by rewrite Nat.add_0_r.
      * right. exists (S i, mid ++ rest). simpl.
        destruct (N.eqb_spec d newline) as [-> | _].
        { exfalso. apply Hmid. by left. }
        split; [by left |].
        replace (i <? S i)%nat with true by (symmetry; apply Nat.ltb_lt; lia).
        apply IH; [simpl in Hlen; lia |].
        exists mid, rest. split_and!; [done | | f_equal; simpl; lia].
        intros ?. apply Hmid. by right.
Qed.

(** The opening group [(^|.*\+)]. *)
Lemma ends_opening (s : str) (st : mstate) :
  In st (ends (Alt Bol (Seq (Star Dot) (Chr plus))) (0, s))
  ↔ st = (0, s)
    ∨ ∃ pre' rest, s = pre' ++ plus :: rest ∧ (newline ∉ pre')
        ∧ st = (S (length pre'), rest).
Proof.
  cbn [ends]. rewrite in_app_iff, in_flat_map. simpl fst. simpl snd.
  split.
  - intros [[<- | []] | (st1 & H1 & H2)]; [by left |]. right.
    apply ends_star_dot in H1 as (mid & rest & -> & Hmid & ->); [| done].
    cbn [ends fst snd] in H2. destruct rest as [|d rest]; [done |].
    destruct (N.eqb_spec plus d) as [<- |]; [| done].
    destruct H2 as [<- | []]. eauto.
  - intros [-> | (pre' & rest & -> & Hpre & ->)]; [left; by left |].
    right. exists (length pre', plus :: rest). split.
    + apply ends_star_dot; [done |]. exists pre', (plus :: rest). done.
    + cbn [ends fst snd]. rewrite N.eqb_refl. by left.
Qed.

(** The closing group [(\+.*|$)]. *)
Lemma ends_closing (j : nat) (post : str) :
  ends (Alt (Seq (Chr plus) (Star Dot)) Eol) (j, post) ≠ []
  ↔ post = [] ∨ post = [newline] ∨ ∃ post', post = plus :: post'.
Proof.
  cbn [ends]. simpl fst. simpl snd. split.
  - intros H. destruct post as [|d post]; [by left |]. right.
    destruct (N.eqb_spec plus d) as [<- | Hd]; [right; eauto |].
    cbn [flat_map app at_eol] in H. destruct post as [|e post]; [| done].
    destruct (N.eqb_spec d newline) as [E |]; [left; by rewrite E | done].
  - intros [-> | [-> | [post' ->]]]; [done | done |].
    rewrite N.eqb_refl. cbn [flat_map app]. by destruct (length _).
Qed.

(** What [Styler.matched] computes, newline behaviour of [.] and [$]
    included. *)
Lemma matched_spec (pattern string : str) :
  matched pattern string = true
  ↔ ∃ pre post, string = pre ++ pattern ++ post
      ∧ (pre = [] ∨ ∃ pre', pre = pre' ++ [plus] ∧ (newline ∉ pre'))
      ∧ (post = [] ∨ post = [newline] ∨ ∃ post', post = plus :: post').
Proof.
  unfold matched, match_.
  set (A := Alt Bol (Seq (Star Dot) (Chr plus))).
  set (B := Alt (Seq (Chr plus) (Star Dot)) Eol).
  assert (Hne : ∀ l : list mstate,
             match l with [] => false | _ :: _ => true end = true ↔ l ≠ []).
  { intros [|? ?]; split; done. }
  rewrite Hne. clear Hne. cbn [ends]. split.
  - intros H.
    destruct (flat_map _ _) as [|st3 l] eqn:E; [done |].
    assert (H3 : In st3 (flat_map (λ st, flat_map (ends B) (ends (escape pattern) st))
                           (ends A (0, string)))) by (rewrite E; by left).
    apply in_flat_map in H3 as (st1 & H1 & H3).
    apply in_flat_map in H3 as (st2 & H2 & H3).
    assert (HB : ends B st2 ≠ []) by (intros HB; by rewrite HB in H3).
    apply ends_opening in H1 as [-> | (pre' & rest & -> & Hpre & ->)].
    + apply ends_escape in H2 as (post & -> & ->).
      apply ends_closing in HB. exists [], post. split_and!; [done | by left | done].
    + apply ends_escape in H2 as (post & -> & ->).
      apply ends_closing in HB. exists (pre' ++ [plus]), post.
      split_and!; [by rewrite <- app_assoc | right; eauto | done].
  - intros (pre & post & -> & Hpre & Hpost) E.
    set (j := length pre + length pattern).
    assert (HB : ends B (j, post) ≠ []) by by apply ends_closing.
    destruct (ends B (j, post)) as [|st3 l] eqn:EB; [done |].
    assert (H3 : In st3 (flat_map (λ st, flat_map (ends B) (ends (escape pattern) st))
                           (ends A (0, pre ++ pattern ++ post)))); [| by rewrite E in H3].
    apply in_flat_map. exists (length pre, pattern ++ post). split.
    + apply ends_opening. destruct Hpre as [-> | (pre' & -> & Hpre')]; [by left |].
      right. exists pre', (pattern ++ post). rewrite <- app_assoc, length_app.
      simpl. split_and!; [done | done | f_equal; lia].
    + apply in_flat_map. exists (j, post). split.
      * apply ends_escape. eauto.
      * rewrite EB. by left.
Qed.

End Matcher.

Lemma matched_anchored_iff (pattern sig : str) :
  Re.newline ∉ sig → (matched pattern sig = true ↔ anchored pattern sig).
Proof.
  intros Hnl. rewrite matched_spec. unfold anchored. split.
  - intros (pre & post & -> & Hpre & Hpost). exists pre, post.
    split_and!; [done | |].
    + destruct Hpre as [-> | (pre' & -> & _)]; eauto.
    + destruct Hpost as [-> | [-> | [post' ->]]]; eauto.
      exfalso. apply Hnl. rewrite !elem_of_app. right. right. by left.
  - intros (pre & post & -> & Hpre & Hpost). exists pre, post.
    split_and!; [done | |].
    + destruct Hpre as [-> | (pre' & ->)]; [by left |]. right.
      exists pre'. split; [done |]. intros Hin. apply Hnl.
      rewrite !elem_of_app. left. by left.
    + destruct Hpost as [-> | [post' ->]]; eauto.
Qed.

(** C2, as the code has it: on a joined signature without a newline,
    [matched] is true exactly when the pattern occurs anchored on ["+"]
    boundaries (start of the string or right after a ["+"], end of the
    string or right before a ["+"]), by exact comparison.  Pattern
    ["VV"] does not match ["VVX/VV+EF/EF"]; pattern ["VV/VV"] does not
    match it either (the string starts with ["VVX/VV"]), and matches
    ["VV/VV+EF/EF"] at the string start. *)
Theorem matched_anchored (pattern sig : str) :
  Re.newline ∉ sig →
  (matched pattern sig = true ↔ anchored pattern sig)
  ∧ matched (lit "VV") (lit "VVX/VV+EF/EF") = false
  ∧ matched (lit "VV/VV") (lit "VVX/VV+EF/EF") = false
  ∧ matched (lit "VV/VV") (lit "VV/VV+EF/EF") = true.
Proof.
  intros Hnl. split; [by apply matched_anchored_iff |].
  split_and!; reflexivity.
Qed.

Lemma matched_anchored_witness :
  (Re.newline ∉ lit "VVX/VV+EF/EF")
  ∧ ((matched (lit "EF/EF") (lit "VVX/VV+EF/EF") = true
      ↔ anchored (lit "EF/EF") (lit "VVX/VV+EF/EF"))
     ∧ matched (lit "VV") (lit "VVX/VV+EF/EF") = false
     ∧ matched (lit "VV/VV") (lit "VVX/VV+EF/EF") = false
     ∧ matched (lit "VV/VV") (lit "VV/VV+EF/EF") = true).
Proof.
  assert (H : Re.newline ∉ lit "VVX/VV+EF/EF").
  { apply (bool_decide_unpack _). vm_compute. exact I. }
  split; [exact H | exact (matched_anchored _ _ H)].
Defined.

(** C2 as stated fails: ["VV/VV"] does not match ["VVX/VV+EF/EF"]; and
    with a newline in the text, [$] also accepts the position before a
    final newline, where the pattern is not anchored. *)
Lemma matched_VV_VV_counterexample :
  matched (lit "VV/VV") (lit "VVX/VV+EF/EF") = false
  ∧ matched (lit "a") (lit "a" ++ [Re.newline]) = true
  ∧ ¬ anchored (lit "a") (lit "a" ++ [Re.newline]).
Proof.
  split_and!; [reflexivity | reflexivity |].
  intros (pre & post & H & Hpre & Hpost).
  destruct Hpre as [-> | (pre' & ->)].
  - simpl in H. injection H as <-.
    destruct Hpost as [? | [post' ?]]; done.
  - destruct pre' as [|c pre']; [done |].
    cbn in H. injection H as _ H.
    destruct pre' as [|d pre']; [done |].
    cbn in H. injection H as _ H. destruct pre'; done.
Qed.

(** ** Preprocessing *)

Lemma lstrip_spec (s : str) :
  ∃ ws, s = ws ++ Py.lstrip s
    ∧ Forall (λ c, Py.isspace c = true) ws
    ∧ (∀ c, head (Py.lstrip s) = Some c → Py.isspace c = false).
Proof.
  induction s as [|c s (ws & Hs & Hws & Hhd)]; simpl.
  - exists []. split_and!; [done | constructor | done].
  - destruct (Py.isspace c) eqn:Ec.
    + exists (c :: ws). split_and!; [by rewrite Hs at 1 | by constructor | done].
    + exists []. split_and!; [done | constructor |].
      intros d [= <-]. done.
Qed.

Lemma rev_reverse (s : str) : rev s = reverse s.
Proof. unfold reverse. apply rev_alt. Qed.

Lemma strip_spec (s : str) : trim_of s (Py.strip s).
Proof.
  unfold Py.strip, Py.rstrip.
  destruct (lstrip_spec s) as (ws1 & H1 & Hws1 & Hhd1).
  destruct (lstrip_spec (rev (Py.lstrip s))) as (ws2 & H2 & Hws2 & Hhd2).
  set (u := Py.lstrip (rev (Py.lstrip s))) in *.
  assert (Hl : Py.lstrip s = rev u ++ rev ws2).
  { apply (f_equal (@rev N)) in H2.
    by rewrite rev_involutive, rev_app_distr in H2. }
  exists ws1, (rev ws2). split_and!.
  - by rewrite <- Hl.
  - done.
  - rewrite rev_reverse. by apply Forall_reverse.
  - intros c Hc. apply Hhd1. rewrite Hl.
    destruct (rev u); [done |]. simpl in *. done.
  - intros c Hc. apply Hhd2. fold u.
    rewrite rev_reverse, last_reverse in Hc. done.
Qed.

Lemma endswith_char (c : N) (s : str) :
  Py.endswith [c] s = bool_decide (last s = Some c).
Proof.
  apply eq_true_iff_eq. rewrite endswith_spec, bool_decide_eq_true. split.
  - intros [front ->]. by rewrite last_snoc.
  - intros H. destruct s as [|d s _] using rev_ind; [done |].
    rewrite last_snoc in H. injection H as ->. eauto.
Qed.

Lemma punctuate_spec (trimmed : str) :
  Styler.punctuate trimmed = ensure_final_punctuation trimmed.
Proof.
  unfold Styler.punctuate, ensure_final_punctuation, is_final_punctuation.
  rewrite !endswith_char.
  destruct (last trimmed) as [c|]; [| done].
  destruct (decide (c = qmark)) as [-> | Hq]; [done |].
  destruct (decide (c = bang)) as [-> | Hb]; [done |].
  destruct (decide (c = period)) as [-> | Hp]; [done |].
  rewrite (bool_decide_eq_false_2 (Some c = Some qmark)) by congruence.
  rewrite (bool_decide_eq_false_2 (Some c = Some bang)) by congruence.
  rewrite (bool_decide_eq_false_2 (Some c = Some period)) by congruence.
  rewrite bool_decide_eq_false_2; [done | tauto].
Qed.


(** ** [str.replace] *)

Lemma replace_go_skip (old new : str) (k : nat) (s : str) :
  Py.replace_go old new k s = Py.replace_go old new 0 (drop k s).
Proof.
  revert k; induction s as [|c s IH]; intros [|k]; try done.
  simpl. by rewrite IH.
Qed.

(** At an occurrence the replacement is emitted and the scan resumes
    after the occurrence. *)
Lemma replace_at_occurrence (old new rest : str) :
  old ≠ [] → Py.replace old new (old ++ rest) = new ++ Py.replace old new rest.
Proof.
  destruct old as [|a old]; [done |]. intros _.
  unfold Py.replace. cbn [app Py.replace_go].
  change (a :: old ++ rest) with ((a :: old) ++ rest).
  rewrite (startswith_app (a :: old) rest).
  rewrite replace_go_skip.
  replace (length (a :: old) - 1) with (length old) by (simpl; lia).
  by rewrite drop_app_length.
Qed.

(** Where no occurrence starts, the character is kept. *)
Lemma replace_no_occurrence_here (old new : str) (c : N) (s : str) :
  old ≠ [] → Py.startswith old (c :: s) = false →
  Py.replace old new (c :: s) = c :: Py.replace old new s.
Proof.
  destruct old as [|a old]; [done |]. intros _ H.
  unfold Py.replace. cbn [Py.replace_go]. by rewrite H.
Qed.

Lemma contains_nil (s : str) : Py.contains [] s = true.
Proof. apply contains_spec. by exists [], s. Qed.

Lemma replace_absent (old new s : str) :
  Py.contains old s = false → Py.replace old new s = s.
Proof.
  intros H. assert (Hold : old ≠ []).
  { intros ->. by rewrite contains_nil in H. }
  induction s as [|c s IH]; [by destruct old |].
  simpl in H. apply orb_false_iff in H as [H1 H2].
  rewrite replace_no_occurrence_here by done. by rewrite IH.
Qed.

(** After a replacement that found its key, the text contains the
    replacement. *)
Lemma contains_replace (old new s : str) :
  Py.contains old s = true → Py.contains new (Py.replace old new s) = true.
Proof.
  destruct old as [|a old].
  - intros _. apply contains_spec. by exists [], (flat_map (λ c, c :: new) s).
  - induction s as [|c s IH]; [done |]. intros H. cbn [Py.contains] in H.
    destruct (Py.startswith (a :: old) (c :: s)) eqn:E.
    + apply startswith_spec in E as [rest E]. rewrite E.
      rewrite replace_at_occurrence by done.
      apply contains_spec. by exists [], (Py.replace (a :: old) new rest).
    + simpl in H. rewrite replace_no_occurrence_here by done.
      apply contains_spec. apply IH, contains_spec in H as (pre & post & H).
      exists (c :: pre), post. by rewrite H.
Qed.

(** ** The cleanup stages *)

Lemma rule_pass_app test (r1 r2 : dict str str) (text : str) :
  rule_pass test (r1 ++ r2) text
  = ((rule_pass test r2 (rule_pass test r1 text).1).1,
     (rule_pass test r1 text).2 ∪ (rule_pass test r2 (rule_pass test r1 text).1).2).
Proof.
  revert text; induction r1 as [|[key val] r1 IH]; intros text; simpl.
  - destruct (rule_pass test r2 text) as [t h]. simpl. f_equal. set_solver.
  - destruct (test key text); rewrite IH; simpl; [| done].
    f_equal. set_solver.
Qed.

(** Exactly the applied pairs: a pair is in the result set iff its rule
    is in the table and [test] accepted its key on the text left by the
    rules before it. *)
Lemma rule_pass_applied test (rules : dict str str) (text : str) (p : str * str) :
  p ∈ (rule_pass test rules text).2
  ↔ ∃ r1 r2, rules = r1 ++ p :: r2 ∧ test p.1 (rule_pass test r1 text).1 = true.
Proof.
  revert text; induction rules as [|[key val] rules IH]; intros text; simpl.
  - split; [set_solver |]. intros (r1 & r2 & H & _). by destruct r1.
  - destruct (test key text) eqn:E; simpl.
    + rewrite elem_of_union, elem_of_singleton, IH. split.
      * intros [-> | (r1 & r2 & -> & Hocc)].
        -- by exists [], rules.
        -- exists ((key, val) :: r1), r2. split; [done |]. simpl. by rewrite E.
      * intros (r1 & r2 & H & Hocc). destruct r1 as [|q r1]; simplify_eq/=.
        -- by left.
        -- right. rewrite E in Hocc. eauto.
    + rewrite IH. split.
      * intros (r1 & r2 & -> & Hocc).
        exists ((key, val) :: r1), r2. split; [done |]. simpl. by rewrite E.
      * intros (r1 & r2 & H & Hocc). destruct r1 as [|q r1]; simplify_eq/=.
        -- congruence.
        -- rewrite E in Hocc. eauto.
Qed.

Lemma cleanup_pass_applied (rules : dict str str) (text : str) (p : str * str) :
  p ∈ (cleanup_pass rules text).2
  ↔ ∃ r1 r2, rules = r1 ++ p :: r2 ∧ occurs_in p.1 (cleanup_pass r1 text).1.
Proof.
  unfold cleanup_pass. rewrite rule_pass_applied.
  by setoid_rewrite contains_spec.
Qed.

Lemma abbreviate_eval (rules : dict str str) a (text : str) lg hc ha hi :
  for_ rules (Styler.cleanup_step Styler.add_abbreviation)
       (Styler.mk a (VStr text) lg hc ha hi)
  = (inr tt, Styler.mk a (VStr (cleanup_pass rules text).1) lg hc
                       ((cleanup_pass rules text).2 ∪ ha) hi).
Proof.
  revert text ha; induction rules as [|[key val] rules IH]; intros text ha.
  - cbn. do 2 f_equal. set_solver.
  - unfold cleanup_pass in *. cbn [for_ rule_pass].
    cbv [mbind M_bind mret M_ret get modify Styler.cleanup_step Styler.out_str
         Styler.out Styler.set_out Styler.add_abbreviation Styler.args
         Styler.logs Styler.history_conjugations Styler.history_abbreviations
         Styler.history_irregulars].
    destruct (Py.contains key text); rewrite IH; [| done].
    cbn. do 2 f_equal. set_solver.
Qed.

Lemma apply_irregulars_eval (rules : dict str str) a (text : str) lg hc ha hi :
  for_ rules (Styler.cleanup_step Styler.add_irregular)
       (Styler.mk a (VStr text) lg hc ha hi)
  = (inr tt, Styler.mk a (VStr (cleanup_pass rules text).1) lg hc ha
                       ((cleanup_pass rules text).2 ∪ hi)).
Proof.
  revert text hi; induction rules as [|[key val] rules IH]; intros text hi.
  - cbn. do 2 f_equal. set_solver.
  - unfold cleanup_pass in *. cbn [for_ rule_pass].
    cbv [mbind M_bind mret M_ret get modify Styler.cleanup_step Styler.out_str
         Styler.out Styler.set_out Styler.add_irregular Styler.args
         Styler.logs Styler.history_conjugations Styler.history_abbreviations
         Styler.history_irregulars].
    destruct (Py.contains key text); rewrite IH; [| done].
    cbn. do 2 f_equal. set_solver.
Qed.

(** C5, as the code has it: each cleanup stage goes through its table in
    order; a rule whose key occurs in the current text replaces all its
    occurrences and is recorded, a rule whose key does not occur is
    skipped and not recorded; the abbreviation stage works on the
    conjugated text and the irregular stage on the abbreviated text.  A
    rule is judged on the text current when it is reached: if the
    abbreviation table holds (key, val) and that text contains key, the
    text right after the rule contains val and the pair is recorded; with
    the single rule (annyeonghaseyo, annyonghaseyo) this is the conjugated
    text and the stage output. *)
Theorem cleanup_stages (T : Tables) (st : Styler.t) (conjugated : str) :
  let st0 := Styler.set_out (VStr conjugated) st in
  let abbr := cleanup_pass (ABBREVIATIONS T) conjugated in
  let irr := cleanup_pass (IRREGULARS T) abbr.1 in
  Styler.abbreviate T st0
  = (inr tt, Styler.mk (Styler.args st) (VStr abbr.1) (Styler.logs st)
               (Styler.history_conjugations st)
               (abbr.2 ∪ Styler.history_abbreviations st)
               (Styler.history_irregulars st))
  ∧ (Styler.abbreviate T ;; Styler.apply_irregulars T) st0
    = (inr tt, Styler.mk (Styler.args st) (VStr irr.1) (Styler.logs st)
                 (Styler.history_conjugations st)
                 (abbr.2 ∪ Styler.history_abbreviations st)
                 (irr.2 ∪ Styler.history_irregulars st))
  ∧ (∀ key val rules text, occurs_in key text →
       cleanup_pass ((key, val) :: rules) text
       = ((cleanup_pass rules (Py.replace key val text)).1,
          {[(key, val)]} ∪ (cleanup_pass rules (Py.replace key val text)).2))
  ∧ (∀ key val rules text, ¬ occurs_in key text →
       cleanup_pass ((key, val) :: rules) text = cleanup_pass rules text)
  ∧ (∀ rules text p,
       p ∈ (cleanup_pass rules text).2
       ↔ ∃ r1 r2, rules = r1 ++ p :: r2 ∧ occurs_in p.1 (cleanup_pass r1 text).1)
  ∧ (∀ r1 r2 key val,
       ABBREVIATIONS T = r1 ++ (key, val) :: r2 →
       occurs_in key (cleanup_pass r1 conjugated).1 →
       occurs_in val (cleanup_pass (r1 ++ [(key, val)]) conjugated).1
       ∧ (key, val) ∈ abbr.2)
  ∧ (ABBREVIATIONS T = [(annyeonghaseyo, annyonghaseyo)] →
     occurs_in annyeonghaseyo conjugated →
     occurs_in annyonghaseyo abbr.1 ∧ (annyeonghaseyo, annyonghaseyo) ∈ abbr.2).
Proof.
  intros st0 abbr irr.
  assert (Hone : ∀ r1 r2 key val,
             ABBREVIATIONS T = r1 ++ (key, val) :: r2 →
             occurs_in key (cleanup_pass r1 conjugated).1 →
             occurs_in val (cleanup_pass (r1 ++ [(key, val)]) conjugated).1
             ∧ (key, val) ∈ abbr.2).
  { intros r1 r2 key val HT Hocc. split.
    - apply contains_spec in Hocc. unfold cleanup_pass in *.
      rewrite rule_pass_app. cbn [fst rule_pass]. rewrite Hocc. cbn [fst].
      by apply contains_spec, contains_replace.
    - apply cleanup_pass_applied. eauto. }
  split_and!.
  - destruct st. apply abbreviate_eval.
  - destruct st. unfold mbind, M_bind, st0, Styler.abbreviate, Styler.set_out.
    cbn [Styler.args Styler.logs Styler.history_conjugations
         Styler.history_abbreviations Styler.history_irregulars].
    rewrite abbreviate_eval. apply apply_irregulars_eval.
  - intros key val rules text Hocc. apply contains_spec in Hocc.
    unfold cleanup_pass. cbn [rule_pass]. by rewrite Hocc.
  - intros key val rules text Hocc. unfold cleanup_pass. cbn [rule_pass].
    destruct (Py.contains key text) eqn:E; [| done].
    by apply contains_spec in E.
  - apply cleanup_pass_applied.
  - exact Hone.
  - intros HT Hocc. destruct (Hone [] [] _ _ HT Hocc) as [H1 H2].
    split; [| done]. subst abbr. by rewrite HT.
Qed.

Lemma cleanup_stages_witness :
  occurs_in annyeonghaseyo (annyeonghaseyo ++ [bang])
  ∧ occurs_in annyonghaseyo
      (cleanup_pass (ABBREVIATIONS greeting_only) (annyeonghaseyo ++ [bang])).1
  ∧ (annyeonghaseyo, annyonghaseyo)
      ∈ (cleanup_pass (ABBREVIATIONS greeting_only) (annyeonghaseyo ++ [bang])).2.
Proof.
  assert (Hocc : occurs_in annyeonghaseyo (annyeonghaseyo ++ [bang])).
  { exists [], [bang]. reflexivity. }
  split; [exact Hocc |].
  pose proof (cleanup_stages greeting_only Styler.init (annyeonghaseyo ++ [bang])) as H.
  cbv zeta in H. destruct H as (_ & _ & _ & _ & _ & _ & H).
  exact (H eq_refl Hocc).
Defined.

(** C5 as stated fails: the table contains the pair and the conjugated
    text contains its key, but the stage output does not contain the
    replacement and the pair is not recorded. *)
Lemma cleanup_shadowed_counterexample :
  let r := Styler.abbreviate greeting_shadowed
             (Styler.set_out (VStr annyeonghaseyo) Styler.init) in
  (annyeonghaseyo, annyonghaseyo) ∈ ABBREVIATIONS greeting_shadowed
  ∧ Py.contains annyeonghaseyo annyeonghaseyo = true
  ∧ r.1 = inr tt
  ∧ Styler.out r.2 = VStr [50504; 88; 54616; 49464; 50836]%N
  ∧ Py.contains annyonghaseyo [50504; 88; 54616; 49464; 50836]%N = false
  ∧ (annyeonghaseyo, annyonghaseyo) ∉ Styler.history_abbreviations r.2.
Proof.
  split_and!; try reflexivity.
  - apply (bool_decide_unpack _). vm_compute. exact I.
  - apply (bool_decide_unpack _). vm_compute. exact I.
Qed.

(** ** The conjugation stage *)

Lemma conjugate_steps_eval (politeness : Z) (table : dict str (dict Z str))
    (rules : dict str str) (tuned : str) a o lg hc ha hi :
  at_level politeness table = Some rules →
  for_acc table tuned (Styler.conjugate_step politeness) (Styler.mk a o lg hc ha hi)
  = (inr (honorific_pass rules tuned).1,
     Styler.mk a o lg ((honorific_pass rules tuned).2 ∪ hc) ha hi).
Proof.
  unfold honorific_pass.
  revert rules tuned hc; induction table as [|[pattern levels] table IH];
    intros rules tuned hc Hlv.
  - injection Hlv as <-. cbn. do 2 f_equal. set_solver.
  - cbn [at_level] in Hlv.
    destruct (dict_get politeness levels) as [honorific|] eqn:Eh; [| done].
    destruct (at_level politeness table) as [rules'|] eqn:Er; [| done].
    injection Hlv as <-. cbn [for_acc rule_pass].
    unfold Styler.conjugate_step. unfold_monad.
    destruct (matched pattern tuned).
    + rewrite Eh. rewrite (IH rules') by done. cbn. do 2 f_equal. set_solver.
    + by rewrite (IH rules').
Qed.

Lemma conjugate_token_eval (T : Tables) (politeness : Z) (rules : dict str str)
    (token : KhaiiiWord) (out0 : list str) a o lg hc ha hi :
  at_level politeness (HONORIFICS T) = Some rules →
  Styler.conjugate_token T politeness out0
    (lex token, map morph_str (morphs token)) (Styler.mk a o lg hc ha hi)
  = (inr (out0 ++ [emit rules token]),
     Styler.mk a o lg ((honorific_pass rules (signature token)).2 ∪ hc) ha hi).
Proof.
  intros Hlv. unfold Styler.conjugate_token, mbind, M_bind, mret, M_ret.
  by rewrite (conjugate_steps_eval _ _ rules).
Qed.

Lemma conjugate_tokens_eval (T : Tables) (politeness : Z) (rules : dict str str)
    (tokens : list KhaiiiWord) (out0 : list str) a o lg hc ha hi :
  at_level politeness (HONORIFICS T) = Some rules →
  for_acc (map (λ token, (lex token, map morph_str (morphs token))) tokens) out0
          (Styler.conjugate_token T politeness) (Styler.mk a o lg hc ha hi)
  = (inr (out0 ++ map (emit rules) tokens),
     Styler.mk a o lg (conjugation_pairs rules tokens ∪ hc) ha hi).
Proof.
  intros Hlv. unfold conjugation_pairs.
  revert out0 hc; induction tokens as [|token tokens IH]; intros out0 hc.
  - cbn. rewrite app_nil_r. do 2 f_equal. set_solver.
  - cbn [map for_acc]. unfold mbind at 1, M_bind at 1.
    rewrite (conjugate_token_eval _ _ rules) by done.
    rewrite IH. cbn [union_list]. rewrite <- app_assoc.
    do 2 f_equal. set_solver.
Qed.

Lemma conjugate_eval (T : Tables) (a : Styler.Args) (by_environ : dict str Case)
    (case : Case) (rules : dict str str) (tokens : list KhaiiiWord) lg hc ha hi :
  dict_get (Styler.listener a) (RULES T) = Some by_environ →
  dict_get (Styler.environ a) by_environ = Some case →
  at_level (politeness case) (HONORIFICS T) = Some rules →
  Styler.conjugate T (Styler.mk (Some a) (VTokens tokens) lg hc ha hi)
  = (inr tt,
     Styler.mk (Some a) (VStr (Py.join [space] (map (emit rules) tokens))) lg
               (conjugation_pairs rules tokens ∪ hc) ha hi).
Proof.
  intros H1 H2 Hlv. unfold Styler.conjugate. unfold_monad.
  rewrite H1, H2. rewrite (conjugate_tokens_eval _ _ rules) by done.
  reflexivity.
Qed.

Lemma at_level_lookup (politeness : Z) (table : dict str (dict Z str))
    (rules : dict str str) :
  at_level politeness table = Some rules →
  ∀ i pattern honorific,
    rules !! i = Some (pattern, honorific)
    ↔ ∃ levels, table !! i = Some (pattern, levels)
                ∧ dict_get politeness levels = Some honorific.
Proof.
  revert rules; induction table as [|[pat levels] table IH]; intros rules Hlv.
  - injection Hlv as <-. intros i ? ?. split; [done | by intros (? & ? & _)].
  - cbn [at_level] in Hlv.
    destruct (dict_get politeness levels) as [h|] eqn:Eh; [| done].
    destruct (at_level politeness table) as [rules'|] eqn:Er; [| done].
    injection Hlv as <-. intros [|i] pattern honorific; simpl.
    + split.
      * intros [= <- <-]. eauto.
      * intros (lv & [= <- <-] & Hh). congruence.
    + by apply IH.
Qed.

Lemma conjugation_pairs_applied (rules : dict str str) (tokens : list KhaiiiWord)
    (p : str * str) :
  p ∈ conjugation_pairs rules tokens
  ↔ ∃ token r1 r2, token ∈ tokens ∧ rules = r1 ++ p :: r2
      ∧ matched p.1 (honorific_pass r1 (signature token)).1 = true.
Proof.
  unfold conjugation_pairs. rewrite elem_of_union_list. split.
  - intros (X & HX & Hp). apply list_elem_of_fmap in HX as (token & -> & Htok).
    apply rule_pass_applied in Hp as (r1 & r2 & -> & Hm). eauto 10.
  - intros (token & r1 & r2 & Htok & -> & Hm).
    exists (honorific_pass (r1 ++ p :: r2) (signature token)).2. split.
    + apply list_elem_of_fmap. eauto.
    + apply rule_pass_applied. eauto.
Qed.


(** ** Validation *)

Lemma check_loop_eval (T : Tables) (efs : list str) (st : Styler.t) :
  for_ efs (λ ef, if Styler.supported T ef then mret tt
                  else raise (EFNotSupportedError ef)) st
  = (match List.find (λ ef, negb (Styler.supported T ef)) efs with
     | Some ef => inl (EFNotSupportedError ef)
     | None => inr tt
     end, st).
Proof.
  induction efs as [|ef efs IH]; [done |].
  cbn [for_ List.find]. unfold mbind, M_bind.
  destruct (Styler.supported T ef); cbn; [apply IH | done].
Qed.

(** [check] leaves the instance as it is and ends with [check_outcome]. *)
Lemma check_eval (T : Tables) (tokens : list KhaiiiWord) (st : Styler.t) :
  Styler.out st = VTokens tokens →
  Styler.check T st = (check_outcome T tokens, st).
Proof.
  intros Hout. unfold Styler.check, check_outcome. unfold_monad.
  unfold Styler.out in Hout. destruct st as [a o lg hc ha hi]. subst o.
  fold (efs_of tokens). destruct (efs_of tokens) as [|ef efs] eqn:E; [done |].
  apply check_loop_eval.
Qed.

(** No joined signature contains the two characters ["EF"]: the sentence
    is refused as having no final ending. *)
Lemma check_no_EF (T : Tables) (tokens : list KhaiiiWord) :
  (∀ token, token ∈ tokens → Py.contains (lit "EF") (signature token) = false) →
  check_outcome T tokens
  = inl (EFNotIncludedError (Py.join [bar] (map signature tokens))).
Proof.
  intros H. unfold check_outcome.
  destruct (efs_of tokens) as [|ef efs] eqn:E; [done |].
  assert (Hin : ef ∈ efs_of tokens) by (rewrite E; by left).
  apply list_elem_of_filter in Hin as [Hef Hin].
  apply list_elem_of_fmap in Hin as (token & -> & Htok).
  rewrite H in Hef; done.
Qed.

(** Some signature containing ["EF"] is matched by no key: the sentence
    is refused, the error carrying the first such signature. *)
Lemma check_unsupported (T : Tables) (tokens : list KhaiiiWord) (token : KhaiiiWord) :
  token ∈ tokens →
  Py.contains (lit "EF") (signature token) = true →
  (∀ pattern levels, (pattern, levels) ∈ HONORIFICS T →
     matched pattern (signature token) = false) →
  ∃ ef, check_outcome T tokens = inl (EFNotSupportedError ef)
    ∧ ef ∈ efs_of tokens
    ∧ (∀ pattern levels, (pattern, levels) ∈ HONORIFICS T →
         matched pattern ef = false).
Proof.
  intros Htok Hef Hno. unfold check_outcome.
  assert (Hin : signature token ∈ efs_of tokens).
  { apply list_elem_of_filter. split; [done |]. apply list_elem_of_fmap. eauto. }
  assert (Huns : negb (Styler.supported T (signature token)) = true).
  { apply negb_true_iff, not_true_iff_false. intros Hs.
    apply existsb_exists in Hs as (pattern & Hp & Hm).
    apply list_elem_of_In, list_elem_of_fmap in Hp as ([pat levels] & -> & Hp).
    simpl in Hm. rewrite (Hno pat levels) in Hm; done. }
  destruct (efs_of tokens) as [|e0 efs0] eqn:E; [by apply elem_of_nil in Hin |].
  rewrite <- E in *.
  destruct (List.find _ (efs_of tokens)) as [ef|] eqn:Ef.
  - apply find_some in Ef as [Hin' Hef']. exists ef. split_and!; [done | |].
    + by apply list_elem_of_In.
    + intros pattern levels Hp.
      apply negb_true_iff in Hef'. apply not_true_iff_false. intros Hm.
      apply not_true_iff_false in Hef'. apply Hef'.
      apply existsb_exists. exists pattern. split; [| done].
      apply list_elem_of_In, list_elem_of_fmap. by exists (pattern, levels).
  - apply list_elem_of_In in Hin.
    pose proof (find_none _ _ Ef _ Hin) as Hcontra. cbv beta in Hcontra.
    congruence.
Qed.

(** ** What the conjugation stage leaves alone *)

#[local] Instance only_conjugations_refl : Reflexive only_conjugations.
Proof. by intros st. Qed.

#[local] Instance only_conjugations_trans : Transitive only_conjugations.
Proof.
  intros s1 s2 s3 (?&?&?&?&?) (?&?&?&?&?). unfold only_conjugations.
  split_and!; congruence.
Qed.

Lemma for_acc_preserves {S A B : Type} (R : S → S → Prop)
    `{!Reflexive R, !Transitive R} (body : B → A → M S B) :
  (∀ b x st r st', body b x st = (r, st') → R st st') →
  ∀ l b st r st', for_acc l b body st = (r, st') → R st st'.
Proof.
  intros Hbody l. induction l as [|x l IH]; intros b st r st' H.
  - cbn in H. by injection H as _ <-.
  - cbn [for_acc] in H. unfold mbind, M_bind in H.
    destruct (body b x st) as [[e|b'] st1] eqn:E.
    + injection H as _ <-. eauto.
    + etrans; eauto.
Qed.

Lemma conjugate_step_frame (politeness : Z) (tuned : str) (entry : str * dict Z str)
    (st : Styler.t) r (st' : Styler.t) :
  Styler.conjugate_step politeness tuned entry st = (r, st') →
  only_conjugations st st'.
Proof.
  destruct entry as [pattern levels]. unfold Styler.conjugate_step. unfold_monad.
  destruct (matched pattern tuned); [| by intros [= _ <-]].
  destruct (dict_get politeness levels); intros [= _ <-]; by destruct st.
Qed.

Lemma conjugate_token_frame (T : Tables) (politeness : Z) (out : list str)
    (token : str * list str) (st : Styler.t) r (st' : Styler.t) :
  Styler.conjugate_token T politeness out token st = (r, st') →
  only_conjugations st st'.
Proof.
  destruct token as [lex morphs]. unfold Styler.conjugate_token.
  unfold mbind, M_bind, mret, M_ret.
  destruct (for_acc _ _ _ st) as [[e|tuned] st1] eqn:E; intros [= _ <-];
    eapply (for_acc_preserves only_conjugations); eauto using conjugate_step_frame.
Qed.

(** When [conjugate] returns, it has put a string in [self.out] and
    touched nothing but the conjugation set besides. *)
Lemma conjugate_frame (T : Tables) (st st' : Styler.t) :
  Styler.conjugate T st = (inr tt, st') →
  ∃ conjugated, Styler.out st' = VStr conjugated
    ∧ Styler.args st' = Styler.args st ∧ Styler.logs st' = Styler.logs st
    ∧ Styler.history_abbreviations st' = Styler.history_abbreviations st
    ∧ Styler.history_irregulars st' = Styler.history_irregulars st.
Proof.
  unfold Styler.conjugate. unfold_monad.
  destruct st as [[a|] o lg hc ha hi]; [| done].
  destruct (dict_get (Styler.listener a) (RULES T)) as [by_environ|]; [| done].
  destruct (dict_get (Styler.environ a) by_environ) as [case|]; [| done].
  destruct o as [| |tokens]; [done | done |].
  destruct (for_acc _ _ _ _) as [[e|out] st1] eqn:E; [done |].
  intros [= <-].
  apply (for_acc_preserves only_conjugations) in E as (?&?&?&?&?);
    [| apply conjugate_token_frame].
  destruct st1. simpl in *. eauto 10.
Qed.

(** ** A whole run *)

Lemma call_from_fresh (T : Tables) (khaiii : KhaiiiApi)
    (sent listener environ : str) (st : Styler.t) :
  Styler.call T khaiii sent listener environ st
  = pipeline T khaiii (preprocessed sent listener environ).
Proof. reflexivity. Qed.

(** C8: with the rule tables and the analyzer fixed, two calls with the
    same sentence, listener and environment give the same result (the
    same output string, or the same error) and the same three
    substitution sets, whatever state earlier calls left in the
    instance. *)
Theorem call_deterministic (T : Tables) (khaiii : KhaiiiApi)
    (sent listener environ : str) (st1 st2 : Styler.t) :
  let r1 := Styler.call T khaiii sent listener environ st1 in
  let r2 := Styler.call T khaiii sent listener environ st2 in
  r1.1 = r2.1
  ∧ Styler.history_conjugations r1.2 = Styler.history_conjugations r2.2
  ∧ Styler.history_abbreviations r1.2 = Styler.history_abbreviations r2.2
  ∧ Styler.history_irregulars r1.2 = Styler.history_irregulars r2.2.
Proof.
  intros r1 r2. subst r1 r2. by rewrite !call_from_fresh.
Qed.

Lemma bind_eval {S A B : Type} (m : M S A) (f : A → M S B) (st : S) :
  (m ≫= f) st
  = match m st with
    | (inl e, st') => (inl e, st')
    | (inr a, st') => f a st'
    end.
Proof. reflexivity. Qed.

Lemma analyze_eval (khaiii : KhaiiiApi) a (text : str) lg hc ha hi :
  Styler.analyze khaiii (Styler.mk a (VStr text) lg hc ha hi)
  = match khaiii text with
    | inl e => (inl e, Styler.mk a (VStr text) lg hc ha hi)
    | inr tokens => (inr tt, Styler.mk a (VTokens tokens) lg hc ha hi)
    end.
Proof. unfold Styler.analyze. unfold_monad. by destruct (khaiii text). Qed.

Lemma log_eval a o lg hc ha hi :
  Styler.log (Styler.mk a o lg hc ha hi)
  = (inr tt, Styler.mk a o (lg ++ [o]) hc ha hi).
Proof. reflexivity. Qed.

(** Every way a run can go, stage by stage. *)
Lemma call_stages (T : Tables) (khaiii : KhaiiiApi)
    (sent listener environ : str) (st : Styler.t) :
  let text := Styler.punctuate (Py.strip sent) in
  match khaiii text with
  | inl e =>
      Styler.call T khaiii sent listener environ st
      = (inl e, preprocessed sent listener environ)
  | inr tokens =>
      match check_outcome T tokens with
      | inl e =>
          Styler.call T khaiii sent listener environ st
          = (inl e, Styler.mk (Styler.args (preprocessed sent listener environ))
                      (VTokens tokens) [] ∅ ∅ ∅)
      | inr _ =>
          match Styler.conjugate T (validated sent listener environ tokens) with
          | (inl e, st1) =>
              Styler.call T khaiii sent listener environ st = (inl e, st1)
          | (inr _, st1) =>
              ∃ conjugated,
                Styler.out st1 = VStr conjugated
                ∧ let abbr := cleanup_pass (ABBREVIATIONS T) conjugated in
                  let irr := cleanup_pass (IRREGULARS T) abbr.1 in
                  Styler.call T khaiii sent listener environ st
                  = (inr (VStr irr.1),
                     Styler.mk (Styler.args (preprocessed sent listener environ))
                       (VStr irr.1)
                       [VTokens tokens; VStr conjugated; VStr abbr.1; VStr irr.1]
                       (Styler.history_conjugations st1) abbr.2 irr.2)
          end
      end
  end.
Proof.
  intros text. rewrite call_from_fresh. unfold pipeline, preprocessed.
  fold text. rewrite bind_eval, analyze_eval.
  destruct (khaiii text) as [e|tokens]; [reflexivity |].
  rewrite bind_eval, (check_eval T tokens) by done.
  destruct (check_outcome T tokens) as [e|[]]; [reflexivity |].
  rewrite bind_eval, log_eval, bind_eval. cbn [app].
  fold (validated sent listener environ tokens).
  destruct (Styler.conjugate T _) as [[e|[]] st1] eqn:Ec; [reflexivity |].
  apply conjugate_frame in Ec as (conjugated & Hout & Ha & Hl & Hha & Hhi).
  exists conjugated. split; [done |].
  destruct st1 as [a o lg hc ha hi]. cbn in Hout, Ha, Hl, Hha, Hhi. subst.
  cbn zeta. rewrite bind_eval, log_eval, bind_eval.
  unfold Styler.abbreviate. rewrite abbreviate_eval.
  rewrite bind_eval, log_eval, bind_eval.
  unfold Styler.apply_irregulars. rewrite apply_irregulars_eval.
  rewrite bind_eval, log_eval. cbn [app].
  rewrite !(right_id_L ∅ (∪)). reflexivity.
Qed.



(** ** An unknown listener or environment *)




(** ** Where the code leaves the specification *)

(** C3 fails on the code: no morpheme of the sentence has the tag [EF],
    yet the run does not end with [EFNotIncludedError] (the unsupported
    input error): [check] looks for the characters ["EF"] anywhere in
    the joined signature, finds them in the surface ["UNICEF"], and ends
    with [EFNotSupportedError] on that signature. *)
Theorem check_takes_surface_EF_for_an_ending :
  Forall (λ token, Forall (λ m, bool_decide (tag m = lit "EF") = false)
                          (morphs token)) unicef_tokens
  ∧ check_outcome demo unicef_tokens
    = inl (EFNotSupportedError (lit "UNICEF/SL+./SF"))
  ∧ (Styler.call demo (λ _, inr unicef_tokens) (lit "UNICEF") (lit "friend")
       (lit "public") Styler.init).1
    = inl (EFNotSupportedError (lit "UNICEF/SL+./SF")).
Proof.
  split_and!; [| reflexivity | reflexivity].
  repeat constructor.
Qed.


(** Without a ["+"] inside a morpheme, splitting the joined signature
    gives the morphemes back. *)
Lemma split_sep_free (sep : N) (p : str) : sep ∉ p → Py.split sep p = [p].
Proof.
  induction p as [|c p IH]; [done |]. intros H. cbn [Py.split].
  destruct (N.eqb_spec c sep) as [-> | _].
  - exfalso. apply H. by left.
  - rewrite IH; [done |]. intros ?. apply H. by right.
Qed.

Lemma split_app_sep (sep : N) (p rest : str) :
  sep ∉ p → Py.split sep (p ++ sep :: rest) = p :: Py.split sep rest.
Proof.
  induction p as [|c p IH]; intros H; cbn [app Py.split].
  - by rewrite N.eqb_refl.
  - destruct (N.eqb_spec c sep) as [-> | _].
    + exfalso. apply H. by left.
    + rewrite IH; [done |]. intros ?. apply H. by right.
Qed.

Lemma split_join (sep : N) (ms : list str) :
  ms ≠ [] → Forall (λ m, sep ∉ m) ms → Py.split sep (Py.join [sep] ms) = ms.
Proof.
  induction ms as [|m ms IH]; [done |]. intros _ Hall.
  apply Forall_cons in Hall as [Hm Hms]. destruct ms as [|m' ms].
  - by apply split_sep_free.
  - cbn [Py.join]. cbn [app]. rewrite split_app_sep by done.
    f_equal. by apply IH.
Qed.

Lemma conjugate_steps_no_match (politeness : Z) (table : dict str (dict Z str))
    (tuned : str) (st : Styler.t) :
  Forall (λ entry, matched entry.1 tuned = false) table →
  for_acc table tuned (Styler.conjugate_step politeness) st = (inr tuned, st).
Proof.
  induction table as [|[pattern levels] table IH]; [done |]. intros Hall.
  apply Forall_cons in Hall as [Hm Hall]. cbn [for_acc].
  rewrite bind_eval. unfold Styler.conjugate_step at 1. cbn in Hm.
  rewrite Hm. cbn. by apply IH.
Qed.

Lemma conjugate_tokens_no_match (T : Tables) (politeness : Z)
    (tokens : list KhaiiiWord) (out0 : list str) (st : Styler.t) :
  Forall (λ token, Forall (λ entry, matched entry.1 (signature token) = false)
                          (HONORIFICS T)) tokens →
  Forall (λ token, Forall (λ m, plus ∉ morph_str m) (morphs token)) tokens →
  for_acc (map (λ token, (lex token, map morph_str (morphs token))) tokens)
          out0 (Styler.conjugate_token T politeness) st
  = (inr (out0 ++ map lex tokens), st).
Proof.
  revert out0; induction tokens as [|token tokens IH]; intros out0 Hno Hplus.
  - cbn. by rewrite app_nil_r.
  - apply Forall_cons in Hno as [Hno1 Hno], Hplus as [Hplus1 Hplus].
    cbn [map for_acc]. rewrite bind_eval.
    unfold Styler.conjugate_token at 1. rewrite bind_eval.
    fold (signature token). rewrite conjugate_steps_no_match by done.
    assert (Hsame : Styler.surfaces (Py.split plus (signature token))
                    = Styler.surfaces (map morph_str (morphs token))).
    { unfold signature. destruct (morphs token) as [|m ms] eqn:Em; [done |].
      rewrite split_join; [done | done |]. by apply Forall_fmap. }
    rewrite Hsame. rewrite bool_decide_eq_false_2 by (intros Hne; by apply Hne).
    cbn [mret M_ret]. rewrite (IH _ Hno Hplus). by rewrite <- app_assoc.
Qed.

(** Where the idempotent non-change does hold: no key matches any token
    and no morpheme contains a ["+"]. *)
Lemma conjugate_no_match (T : Tables) (a : Styler.Args) (by_environ : dict str Case)
    (case : Case) (tokens : list KhaiiiWord) lg hc ha hi :
  dict_get (Styler.listener a) (RULES T) = Some by_environ →
  dict_get (Styler.environ a) by_environ = Some case →
  Forall (λ token, Forall (λ entry, matched entry.1 (signature token) = false)
                          (HONORIFICS T)) tokens →
  Forall (λ token, Forall (λ m, plus ∉ morph_str m) (morphs token)) tokens →
  Styler.conjugate T (Styler.mk (Some a) (VTokens tokens) lg hc ha hi)
  = (inr tt, Styler.mk (Some a) (VStr (Py.join [space] (map lex tokens))) lg hc ha hi).
Proof.
  intros H1 H2 Hno Hplus. unfold Styler.conjugate. unfold_monad.
  rewrite H1, H2. by rewrite conjugate_tokens_no_match.
Qed.

(** ** The older [Tuner] *)

#[local] Instance only_honorifics_refl : Reflexive only_honorifics.
Proof. by intros st. Qed.

#[local] Instance only_honorifics_trans : Transitive only_honorifics.
Proof.
  intros s1 s2 s3 (?&?&?&?&?&?&?) (?&?&?&?&?&?&?). unfold only_honorifics.
  split_and!; congruence.
Qed.

Lemma honorific_step_frame (politeness : Z) (tuned : str) (entry : str * dict Z str)
    (st : Tuner.t) r (st' : Tuner.t) :
  Tuner.honorific_step politeness tuned entry st = (r, st') →
  only_honorifics st st'.
Proof.
  destruct entry as [pattern levels]. unfold Tuner.honorific_step. unfold_tuner.
  destruct (dict_get politeness levels); intros [= _ <-]; by destruct st.
Qed.

Lemma honorifics_token_frame (T : Tables) (politeness : Z) (out : list str)
    (token : str * list str) (st : Tuner.t) r (st' : Tuner.t) :
  Tuner.honorifics_token T politeness out token st = (r, st') →
  only_honorifics st st'.
Proof.
  destruct token as [lex morphs]. unfold Tuner.honorifics_token.
  destruct (Tuner.some_span_is_key T morphs); [| by intros [= _ <-]].
  rewrite bind_eval.
  destruct (for_acc _ _ _ st) as [[e|tuned] st1] eqn:E; intros [= _ <-];
    eapply (for_acc_preserves only_honorifics); eauto using honorific_step_frame.
Qed.

Lemma apply_honorifics_frame (T : Tables) (st st' : Tuner.t) :
  Tuner.apply_honorifics T st = (inr tt, st') →
  ∃ tuned, Tuner.out st' = VStr tuned
    ∧ Tuner.sent st' = Tuner.sent st ∧ Tuner.logs st' = Tuner.logs st
    ∧ Tuner.history_abbreviations st' = Tuner.history_abbreviations st
    ∧ Tuner.history_irregulars st' = Tuner.history_irregulars st.
Proof.
  unfold Tuner.apply_honorifics. unfold_tuner.
  destruct st as [s [l|] v o lg hh ha hi]; [| done].
  destruct (dict_get l (RULES T)) as [by_visibility|]; [| done].
  destruct v as [v|]; [| done].
  destruct (dict_get v by_visibility) as [case|]; [| done].
  destruct o as [| |tokens]; [done | done |].
  destruct (for_acc _ _ _ _) as [[e|out] st1] eqn:E; [done |].
  intros [= <-].
  apply (for_acc_preserves only_honorifics) in E as (?&?&?&?&?&?&?);
    [| apply honorifics_token_frame].
  destruct st1. simpl in *. eauto 10.
Qed.

Lemma tuner_abbreviations_eval (rules : dict str str) s l v (text : str) lg hh ha hi :
  for_ rules (Tuner.cleanup_step Tuner.add_abbreviation)
       (Tuner.mk s l v (VStr text) lg hh ha hi)
  = (inr tt, Tuner.mk s l v (VStr (cleanup_pass rules text).1) lg hh
                      ((cleanup_pass rules text).2 ∪ ha) hi).
Proof.
  unfold cleanup_pass.
  revert text ha; induction rules as [|[key val] rules IH]; intros text ha.
  - cbn. do 2 f_equal. set_solver.
  - cbn [for_ rule_pass]. rewrite bind_eval.
    assert (Hstep :
      Tuner.cleanup_step Tuner.add_abbreviation (key, val)
        (Tuner.mk s l v (VStr text) lg hh ha hi)
      = if Py.contains key text
        then (inr tt, Tuner.mk s l v (VStr (Py.replace key val text)) lg hh
                               ({[(key, val)]} ∪ ha) hi)
        else (inr tt, Tuner.mk s l v (VStr text) lg hh ha hi)).
    { unfold Tuner.cleanup_step. unfold_tuner. by destruct (Py.contains key text). }
    rewrite Hstep. destruct (Py.contains key text); rewrite IH; [| done].
    cbn. do 2 f_equal. set_solver.
Qed.

Lemma tuner_irregulars_eval (rules : dict str str) s l v (text : str) lg hh ha hi :
  for_ rules (Tuner.cleanup_step Tuner.add_irregular)
       (Tuner.mk s l v (VStr text) lg hh ha hi)
  = (inr tt, Tuner.mk s l v (VStr (cleanup_pass rules text).1) lg hh ha
                      ((cleanup_pass rules text).2 ∪ hi)).
Proof.
  unfold cleanup_pass.
  revert text hi; induction rules as [|[key val] rules IH]; intros text hi.
  - cbn. do 2 f_equal. set_solver.
  - cbn [for_ rule_pass]. rewrite bind_eval.
    assert (Hstep :
      Tuner.cleanup_step Tuner.add_irregular (key, val)
        (Tuner.mk s l v (VStr text) lg hh ha hi)
      = if Py.contains key text
        then (inr tt, Tuner.mk s l v (VStr (Py.replace key val text)) lg hh ha
                               ({[(key, val)]} ∪ hi))
        else (inr tt, Tuner.mk s l v (VStr text) lg hh ha hi)).
    { unfold Tuner.cleanup_step. unfold_tuner. by destruct (Py.contains key text). }
    rewrite Hstep. destruct (Py.contains key text); rewrite IH; [| done].
    cbn. do 2 f_equal. set_solver.
Qed.

Lemma for_cons_eval {S A : Type} (x : A) (l : list A) (body : A → M S unit) (st : S) :
  for_ (x :: l) body st
  = match body x st with
    | (inl e, st') => (inl e, st')
    | (inr _, st') => for_ l body st'
    end.
Proof. reflexivity. Qed.

Lemma tuner_log_eval s l v o lg hh ha hi :
  Tuner.log (Tuner.mk s l v o lg hh ha hi)
  = (inr tt, Tuner.mk s l v o (lg ++ [o]) hh ha hi).
Proof. reflexivity. Qed.

Lemma tuner_analyze_eval (khaiii : KhaiiiApi) s l v (text : str) lg hh ha hi :
  Tuner.analyze_morphemes khaiii (Tuner.mk s l v (VStr text) lg hh ha hi)
  = match khaiii text with
    | inl e => (inl e, Tuner.mk s l v (VStr text) lg hh ha hi)
    | inr tokens => (inr tt, Tuner.mk s l v (VTokens tokens) lg hh ha hi)
    end.
Proof. unfold Tuner.analyze_morphemes. unfold_tuner. by destruct (khaiii text). Qed.

Lemma tuner_postprocess_eval (sent : str) l v (text : str) lg hh ha hi :
  Tuner.postprocess (Tuner.mk (Some sent) l v (VStr text) lg hh ha hi)
  = (inr tt, Tuner.mk (Some sent) l v
               (VStr (if Py.endswith [period] sent then text
                      else Py.drop_last text)) lg hh ha hi).
Proof. reflexivity. Qed.

Lemma tuner_call_from_fresh (T : Tables) (khaiii : KhaiiiApi)
    (sent listener visibility : str) (st : Tuner.t) :
  Tuner.call T khaiii sent listener visibility st
  = tuner_pipeline T khaiii
      (Tuner.mk (Some sent) (Some listener) (Some visibility)
                (VStr (tuner_preprocessed sent)) [] ∅ ∅ ∅).
Proof. reflexivity. Qed.

(** C10: the older [Tuner] returns the text left by the irregular rules
    (the fourth log entry) as it is when the sentence given ends with
    ["."], and without its last character, whatever that character is,
    when the sentence does not. *)
Theorem tuner_call_drops_last_character (T : Tables) (khaiii : KhaiiiApi)
    (sent listener visibility : str) (st : Tuner.t) (v : value) (st' : Tuner.t) :
  Tuner.call T khaiii sent listener visibility st = (inr v, st') →
  ∃ tokens tuned,
    khaiii (tuner_preprocessed sent) = inr tokens
    ∧ let abbreviated := (cleanup_pass (ABBREVIATIONS T) tuned).1 in
      let normalized := (cleanup_pass (IRREGULARS T) abbreviated).1 in
      Tuner.logs st'
      = [VTokens tokens; VStr tuned; VStr abbreviated; VStr normalized]
      ∧ v = VStr (if Py.endswith [period] sent then normalized
                  else removelast normalized)
      ∧ (Py.endswith [period] sent = true → v = VStr normalized)
      ∧ (Py.endswith [period] sent = false →
         ∀ front c, normalized = front ++ [c] → v = VStr front).
Proof.
  rewrite tuner_call_from_fresh. unfold tuner_pipeline.
  rewrite bind_eval, for_cons_eval, tuner_analyze_eval.
  destruct (khaiii _) as [e|tokens] eqn:Ek; [done |].
  rewrite for_cons_eval, tuner_log_eval, for_cons_eval. cbn [app].
  destruct (Tuner.apply_honorifics T _) as [[e|[]] st1] eqn:Eh; [done |].
  apply apply_honorifics_frame in Eh as (tuned & Hout & Hs & Hl & Hha & Hhi).
  destruct st1 as [s1 l1 v1 o1 lg1 hh1 ha1 hi1].
  cbn in Hout, Hs, Hl, Hha, Hhi. subst.
  rewrite for_cons_eval, tuner_log_eval, for_cons_eval.
  unfold Tuner.apply_abbreviations. rewrite tuner_abbreviations_eval.
  rewrite for_cons_eval, tuner_log_eval, for_cons_eval.
  unfold Tuner.apply_irregulars. rewrite tuner_irregulars_eval.
  rewrite for_cons_eval, tuner_log_eval, for_cons_eval, tuner_postprocess_eval.
  cbn. intros [= <- <-]. exists tokens, tuned. split; [done |].
  cbn zeta. unfold Py.drop_last. split_and!; [done | done | |].
  - by intros ->.
  - intros -> front c ->. by rewrite removelast_last.
Qed.

(** The sentence has no final period; the irregular rules leave
    ["nan gongbu haeyo"], whose last letter is then dropped. *)
Lemma tuner_call_drops_last_character_witness :
  ∃ st' normalized,
    Tuner.call tuner_demo demo_khaiii (lit "naneun gongbu hae") (lit "friend")
               (lit "public") Tuner.init
    = (inr (VStr (lit "nan gongbu haey")), st')
    ∧ last (Tuner.logs st') = Some (VStr normalized)
    ∧ VStr (lit "nan gongbu haey") = VStr (removelast normalized).
Proof.
  destruct (Tuner.call tuner_demo demo_khaiii (lit "naneun gongbu hae")
              (lit "friend") (lit "public") Tuner.init) as [r st'] eqn:E.
  assert (Hr : r = inr (VStr (lit "nan gongbu haey"))).
  { change r with (r, st').1. rewrite <- E. vm_compute. reflexivity. }
  subst r.
  destruct (tuner_call_drops_last_character _ _ _ _ _ _ _ _ E)
    as (tokens & tuned & _ & Hlogs & Hv & _).
  eexists st', _. split; [reflexivity |].
  split; [rewrite Hlogs; reflexivity | exact Hv].
Defined.

(** * Further properties of the code *)

(** ** [Styler.check] *)

Lemma supported_spec (T : Tables) (ef : str) :
  Styler.supported T ef = true
  ↔ ∃ pattern levels, (pattern, levels) ∈ HONORIFICS T ∧ matched pattern ef = true.
Proof.
  unfold Styler.supported. rewrite existsb_exists. split.
  - intros (pattern & Hin & Hm).
    apply list_elem_of_In, list_elem_of_fmap in Hin as ([pat levels] & -> & Hin).
    eauto.
  - intros (pattern & levels & Hin & Hm). exists pattern. split; [| done].
    apply list_elem_of_In, list_elem_of_fmap. by exists (pattern, levels).
Qed.

Lemma find_first {A : Type} (f : A → bool) (l : list A) (x : A) :
  List.find f l = Some x
  ↔ ∃ l1 l2, l = l1 ++ x :: l2 ∧ f x = true ∧ Forall (λ y, f y = false) l1.
Proof.
  induction l as [|a l IH]; simpl.
  - split; [done |]. intros (l1 & l2 & H & _). by destruct l1.
  - destruct (f a) eqn:Ea.
    + split.
      * intros [= ->]. exists [], l. by split_and!.
      * intros (l1 & l2 & H & Hx & Hl1). destruct l1 as [|b l1]; simplify_eq/=.
        -- done.
        -- apply Forall_cons in Hl1 as [Hb _]. congruence.
    + rewrite IH. split.
      * intros (l1 & l2 & -> & Hx & Hl1). exists (a :: l1), l2.
        split_and!; [done | done | by constructor].
      * intros (l1 & l2 & H & Hx & Hl1). destruct l1 as [|b l1]; simplify_eq/=.
        -- congruence.
        -- apply Forall_cons in Hl1 as [_ Hl1]. eauto.
Qed.

Lemma find_filter_map {A B : Type} (f : A → B) (P g : B → bool) (l : list A) :
  List.find g (filter (λ b, P b = true) (map f l))
  = f <$> List.find (λ a, P (f a) && g (f a)) l.
Proof.
  induction l as [|a l IH]; [done |]. cbn [map].
  rewrite filter_cons. cbn [List.find]. destruct (P (f a)) eqn:EP.
  - rewrite decide_True by done. cbn [List.find andb].
    destruct (g (f a)); [done | apply IH].
  - rewrite decide_False by congruence. cbn [andb]. apply IH.
Qed.

Lemma efs_of_elem (tokens : list KhaiiiWord) (ef : str) :
  ef ∈ efs_of tokens
  ↔ ∃ token, token ∈ tokens ∧ ef = signature token ∧ occurs_in (lit "EF") ef.
Proof.
  unfold efs_of. rewrite list_elem_of_filter, list_elem_of_fmap, contains_spec.
  fold (occurs_in (lit "EF") ef). naive_solver.
Qed.

Lemma efs_of_nil (tokens : list KhaiiiWord) :
  efs_of tokens = []
  ↔ ∀ token, token ∈ tokens → ¬ occurs_in (lit "EF") (signature token).
Proof.
  split.
  - intros H token Htok Hocc.
    assert (Hin : signature token ∈ efs_of tokens) by (apply efs_of_elem; eauto).
    rewrite H in Hin. by apply elem_of_nil in Hin.
  - intros H. destruct (efs_of tokens) as [|ef efs] eqn:E; [done |].
    assert (Hin : ef ∈ efs_of tokens) by (rewrite E; by left).
    apply efs_of_elem in Hin as (token & Htok & -> & Hocc).
    by destruct (H token Htok).
Qed.

(** X1: [check] leaves the instance untouched, and it passes exactly
    when some token's joined signature contains ["EF"] and every
    signature containing ["EF"] is matched by some honorific key. *)
Theorem check_passes_iff (T : Tables) (tokens : list KhaiiiWord) (st : Styler.t) :
  let st0 := Styler.set_out (VTokens tokens) st in
  (Styler.check T st0).2 = st0
  ∧ ((Styler.check T st0).1 = inr tt
     ↔ (∃ token, token ∈ tokens ∧ occurs_in (lit "EF") (signature token))
       ∧ ∀ token, token ∈ tokens → occurs_in (lit "EF") (signature token) →
           ∃ pattern levels, (pattern, levels) ∈ HONORIFICS T
                             ∧ matched pattern (signature token) = true).
Proof.
  intros st0. rewrite (check_eval T tokens) by done. split; [done |].
  cbn [fst]. unfold check_outcome.
  destruct (efs_of tokens) as [|ef0 efs0] eqn:E.
  - split; [done |]. intros [(token & Htok & Hocc) _].
    pose proof (proj1 (efs_of_nil tokens) E) as E'. by destruct (E' token Htok).
  - assert (Hsome : ∃ token, token ∈ tokens ∧ occurs_in (lit "EF") (signature token)).
    { assert (Hin : ef0 ∈ efs_of tokens) by (rewrite E; by left).
      apply efs_of_elem in Hin as (token & Htok & -> & Hocc). eauto. }
    rewrite <- E. clear E. unfold efs_of. rewrite find_filter_map.
    destruct (List.find _ tokens) as [bad|] eqn:Ef; cbn [fmap option_fmap option_map].
    + split; [done |]. intros [_ Hall].
      apply find_some in Ef as [Hin Hbad]. apply list_elem_of_In in Hin.
      apply andb_true_iff in Hbad as [Hef Hns].
      apply contains_spec in Hef. apply Hall, supported_spec in Hef; [| done].
      by rewrite Hef in Hns.
    + split; [| done]. intros _. split; [done |].
      intros token Htok Hocc. apply supported_spec.
      apply list_elem_of_In in Htok.
      pose proof (find_none _ _ Ef _ Htok) as Hn. cbv beta in Hn.
      apply contains_spec in Hocc. rewrite Hocc in Hn. cbn in Hn.
      by apply negb_false_iff in Hn.
Qed.

(** X2: [check] raises [EFNotIncludedError] exactly when no joined
    signature contains ["EF"]; the message is all the joined signatures,
    separated by ["|"]. *)
Theorem check_not_included_iff (T : Tables) (tokens : list KhaiiiWord)
    (st : Styler.t) (msg : str) :
  (Styler.check T (Styler.set_out (VTokens tokens) st)).1
  = inl (EFNotIncludedError msg)
  ↔ (∀ token, token ∈ tokens → ¬ occurs_in (lit "EF") (signature token))
    ∧ msg = Py.join [bar] (map signature tokens).
Proof.
  rewrite (check_eval T tokens) by done. cbn [fst]. unfold check_outcome.
  destruct (efs_of tokens) as [|ef0 efs0] eqn:E.
  - pose proof (proj1 (efs_of_nil tokens) E) as E'. split.
    + by intros [= <-].
    + by intros [_ ->].
  - split.
    + by destruct (List.find _ _).
    + intros [Hno _]. apply efs_of_nil in Hno. congruence.
Qed.

(** X3: [check] raises [EFNotSupportedError] on the first token, in
    sentence order, whose joined signature contains ["EF"] and is matched
    by no honorific key; the error carries that signature. *)
Theorem check_not_supported_iff (T : Tables) (tokens : list KhaiiiWord)
    (st : Styler.t) (ef : str) :
  (Styler.check T (Styler.set_out (VTokens tokens) st)).1
  = inl (EFNotSupportedError ef)
  ↔ ∃ before token after,
      tokens = before ++ token :: after
      ∧ ef = signature token
      ∧ occurs_in (lit "EF") ef
      ∧ (∀ pattern levels, (pattern, levels) ∈ HONORIFICS T →
           matched pattern ef = false)
      ∧ ∀ t, t ∈ before → occurs_in (lit "EF") (signature t) →
          ∃ pattern levels, (pattern, levels) ∈ HONORIFICS T
                            ∧ matched pattern (signature t) = true.
Proof.
  rewrite (check_eval T tokens) by done. cbn [fst]. unfold check_outcome.
  assert (Hbad : ∀ t, Py.contains (lit "EF") (signature t)
                      && negb (Styler.supported T (signature t)) = true
                      ↔ occurs_in (lit "EF") (signature t)
                        ∧ ∀ pattern levels, (pattern, levels) ∈ HONORIFICS T →
                            matched pattern (signature t) = false).
  { intros t. rewrite andb_true_iff, contains_spec, negb_true_iff.
    fold (occurs_in (lit "EF") (signature t)).
    rewrite <- not_true_iff_false, supported_spec. split.
    - intros [Hocc Hno]. split; [done |]. intros pattern levels Hin.
      apply not_true_iff_false. intros Hm. apply Hno. eauto.
    - intros [Hocc Hno]. split; [done |]. intros (pattern & levels & Hin & Hm).
      by rewrite (Hno pattern levels) in Hm. }
  assert (Hfirst :
    List.find (λ ef, negb (Styler.supported T ef)) (efs_of tokens) = Some ef
    ↔ ∃ before token after,
        tokens = before ++ token :: after
        ∧ ef = signature token
        ∧ occurs_in (lit "EF") ef
        ∧ (∀ pattern levels, (pattern, levels) ∈ HONORIFICS T →
             matched pattern ef = false)
        ∧ ∀ t, t ∈ before → occurs_in (lit "EF") (signature t) →
            ∃ pattern levels, (pattern, levels) ∈ HONORIFICS T
                              ∧ matched pattern (signature t) = true).
  { unfold efs_of. rewrite find_filter_map. split.
    - destruct (List.find _ tokens) as [bad|] eqn:Ef; [| done].
      intros [= <-]. apply find_first in Ef as (l1 & l2 & -> & Hb & Hl1).
      apply Hbad in Hb as [Hocc Hno]. exists l1, bad, l2.
      split_and!; [done | done | done | done |].
      intros t Ht Hocct. apply supported_spec.
      rewrite Forall_forall in Hl1. specialize (Hl1 t Ht).
      apply contains_spec in Hocct. rewrite Hocct in Hl1. cbn in Hl1.
      by apply negb_false_iff in Hl1.
    - intros (l1 & token & l2 & -> & -> & Hocc & Hno & Hl1).
      assert (Hf : List.find (λ a, Py.contains (lit "EF") (signature a)
                                   && negb (Styler.supported T (signature a)))
                     (l1 ++ token :: l2) = Some token); [| by rewrite Hf].
      apply find_first. exists l1, l2. split_and!; [done | by apply Hbad |].
      apply Forall_forall. intros t Ht.
      destruct (Py.contains (lit "EF") (signature t)) eqn:Ec; [| done].
      apply contains_spec in Ec. apply (Hl1 t Ht), supported_spec in Ec.
      by rewrite Ec. }
  destruct (efs_of tokens) as [|ef0 efs0] eqn:E.
  - split; [done |]. intros (l1 & token & l2 & -> & -> & Hocc & _).
    pose proof (proj1 (efs_of_nil _) E) as E'. destruct (E' token); [| done].
    apply elem_of_app. right. by left.
  - rewrite <- Hfirst.
    destruct (List.find _ _) as [bad|]; split; intros [=]; by subst.
Qed.

(** ** How a run can fail *)

Lemma for_acc_error {S A B : Type} (P : exn → Prop) (body : B → A → M S B) :
  (∀ b x st e st', body b x st = (inl e, st') → P e) →
  ∀ l b st e st', for_acc l b body st = (inl e, st') → P e.
Proof.
  intros Hbody l. induction l as [|x l IH]; intros b st e st' H; [done |].
  cbn [for_acc] in H. rewrite bind_eval in H.
  destruct (body b x st) as [[e1|b'] st1] eqn:E.
  - injection H as <- <-. eauto.
  - eauto.
Qed.

Lemma conjugate_step_error (politeness : Z) (tuned : str) (entry : str * dict Z str)
    (st : Styler.t) (e : exn) (st' : Styler.t) :
  Styler.conjugate_step politeness tuned entry st = (inl e, st') →
  e = KeyError (KInt politeness).
Proof.
  destruct entry as [pattern levels]. unfold Styler.conjugate_step. unfold_monad.
  destruct (matched pattern tuned); [| done].
  destruct (dict_get politeness levels); [done |]. by intros [= <- _].
Qed.

Lemma conjugate_token_error (T : Tables) (politeness : Z) (out : list str)
    (token : str * list str) (st : Styler.t) (e : exn) (st' : Styler.t) :
  Styler.conjugate_token T politeness out token st = (inl e, st') →
  e = KeyError (KInt politeness).
Proof.
  destruct token as [lex morphs]. unfold Styler.conjugate_token.
  rewrite bind_eval.
  destruct (for_acc _ _ _ st) as [[e1|tuned] st1] eqn:E; [| done].
  intros [= <- _].
  by eapply (for_acc_error (λ e, e = KeyError (KInt politeness)));
    [apply conjugate_step_error | apply E].
Qed.

(** [conjugate] on a validated instance can only fail with a [KeyError],
    and then it has changed nothing but the conjugation set. *)
Lemma conjugate_error (T : Tables) (sent listener environ : str)
    (tokens : list KhaiiiWord) (e : exn) (st1 : Styler.t) :
  Styler.conjugate T (validated sent listener environ tokens) = (inl e, st1) →
  (∃ k, e = KeyError k)
  ∧ only_conjugations (validated sent listener environ tokens) st1.
Proof.
  unfold Styler.conjugate, validated. unfold_monad.
  cbv [Styler.listener Styler.environ].
  destruct (dict_get listener (RULES T)) as [by_environ|]; cbv beta iota;
    [| intros [= <- <-]; split; [eauto | done]].
  destruct (dict_get environ by_environ) as [case|]; cbv beta iota;
    [| intros [= <- <-]; split; [eauto | done]].
  destruct (for_acc _ _ _ _) as [[e1|out] st2] eqn:E; [| done].
  intros [= <- <-]. split.
  - exists (KInt (politeness case)).
    by eapply (for_acc_error (λ e, e = KeyError (KInt (politeness case))));
      [apply conjugate_token_error | apply E].
  - eapply (for_acc_preserves only_conjugations);
      [apply conjugate_token_frame | apply E].
Qed.

(** X4: the ways a run can fail.  The error is the analyzer's own, or
    one of the two validation errors, or a [KeyError] raised in the
    conjugation stage; the cleanup stages never fail.  A failed run has
    logged nothing, except for the tokens when it failed in the
    conjugation stage, and has recorded no abbreviation and no irregular
    pair, whatever earlier calls left in the instance. *)
Theorem call_failure_modes (T : Tables) (khaiii : KhaiiiApi)
    (sent listener environ : str) (st : Styler.t) (e : exn) (st' : Styler.t) :
  Styler.call T khaiii sent listener environ st = (inl e, st') →
  Styler.history_abbreviations st' = ∅
  ∧ Styler.history_irregulars st' = ∅
  ∧ (khaiii (Styler.punctuate (Py.strip sent)) = inl e
     ∧ Styler.logs st' = [] ∧ Styler.history_conjugations st' = ∅
     ∨ ∃ tokens,
         khaiii (Styler.punctuate (Py.strip sent)) = inr tokens
         ∧ ((((∃ msg, e = EFNotIncludedError msg) ∨ ∃ ef, e = EFNotSupportedError ef)
             ∧ Styler.logs st' = [] ∧ Styler.history_conjugations st' = ∅)
            ∨ (∃ k, e = KeyError k) ∧ Styler.logs st' = [VTokens tokens])).
Proof.
  intros H. pose proof (call_stages T khaiii sent listener environ st) as Hs.
  cbv zeta in Hs. rewrite H in Hs.
  destruct (khaiii _) as [e0|tokens] eqn:Ek.
  { injection Hs as -> ->. split_and!; [done | done |]. left. done. }
  destruct (check_outcome T tokens) as [e0|[]] eqn:Ec.
  { injection Hs as -> ->. split_and!; [done | done |]. right.
    exists tokens. split; [done |]. left. split; [| done].
    unfold check_outcome in Ec. destruct (efs_of tokens); [injection Ec as <-; eauto |].
    destruct (List.find _ _); [injection Ec as <-; eauto | done]. }
  destruct (Styler.conjugate T _) as [[e0|[]] st1] eqn:Econj.
  - injection Hs as -> ->.
    apply conjugate_error in Econj as [Hk (_ & _ & Hl & Hha & Hhi)].
    split_and!; [done | done |]. right. exists tokens. split; [done |].
    right. done.
  - by destruct Hs as (conjugated & _ & [=]).
Qed.

Lemma call_failure_modes_witness :
  ∃ st', Styler.call demo demo_khaiii (Styler.sent demo_args) (lit "boss")
           (lit "private") Styler.init
         = (inl (KeyError (KStr (lit "private"))), st')
    ∧ Styler.history_abbreviations st' = ∅
    ∧ Styler.history_irregulars st' = ∅.
Proof.
  destruct (Styler.call demo demo_khaiii (Styler.sent demo_args) (lit "boss")
              (lit "private") Styler.init) as [r st'] eqn:E.
  assert (Hr : r = inl (KeyError (KStr (lit "private")))).
  { change r with (r, st').1. rewrite <- E. vm_compute. reflexivity. }
  subst r. exists st'. split; [reflexivity |].
  destruct (call_failure_modes _ _ _ _ _ _ _ _ E) as (Ha & Hi & _).
  split; [exact Ha | exact Hi].
Defined.

(** ** A pattern without a replacement at the level *)

Lemma for_acc_app {S A B : Type} (l1 l2 : list A) (b : B) (body : B → A → M S B)
    (st : S) :
  for_acc (l1 ++ l2) b body st
  = match for_acc l1 b body st with
    | (inl e, st') => (inl e, st')
    | (inr b', st') => for_acc l2 b' body st'
    end.
Proof.
  revert b st; induction l1 as [|x l1 IH]; intros b st; [done |].
  cbn [app for_acc]. rewrite !bind_eval.
  destruct (body b x st) as [[e|b'] st1]; [done | apply IH].
Qed.

(** X5: when a key matches the working string of the first token and
    its table entry has no replacement at the politeness level,
    [conjugate] raises [KeyError] on the level; [self.out] still holds
    the tokens, and the pairs applied before that key stay in the
    conjugation set. *)
Theorem conjugate_missing_level (T : Tables) (a : Styler.Args)
    (by_environ : dict str Case) (case : Case)
    (table1 table2 : dict str (dict Z str)) (rules1 : dict str str)
    (pattern : str) (levels : dict Z str)
    (token : KhaiiiWord) (rest : list KhaiiiWord) lg hc ha hi :
  dict_get (Styler.listener a) (RULES T) = Some by_environ →
  dict_get (Styler.environ a) by_environ = Some case →
  HONORIFICS T = table1 ++ (pattern, levels) :: table2 →
  at_level (politeness case) table1 = Some rules1 →
  matched pattern (honorific_pass rules1 (signature token)).1 = true →
  dict_get (politeness case) levels = None →
  Styler.conjugate T (Styler.mk (Some a) (VTokens (token :: rest)) lg hc ha hi)
  = (inl (KeyError (KInt (politeness case))),
     Styler.mk (Some a) (VTokens (token :: rest)) lg
               ((honorific_pass rules1 (signature token)).2 ∪ hc) ha hi).
Proof.
  intros H1 H2 HT Hlv Hm Hnone. unfold Styler.conjugate. unfold_monad.
  rewrite H1, H2. cbn [map for_acc]. rewrite bind_eval.
  unfold Styler.conjugate_token at 1. rewrite bind_eval.
  fold (signature token). rewrite HT, for_acc_app.
  rewrite (conjugate_steps_eval _ _ rules1) by done.
  cbn [for_acc]. rewrite bind_eval.
  unfold Styler.conjugate_step at 1. rewrite Hm. unfold_monad.
  by rewrite Hnone.
Qed.

Lemma conjugate_missing_level_witness :
  Styler.conjugate demo_gap (Styler.mk (Some demo_args) (VTokens [demo_verb]) [] ∅ ∅ ∅)
  = (inl (KeyError (KInt 2)),
     Styler.mk (Some demo_args) (VTokens [demo_verb]) []
       ((honorific_pass [(lit "a/EF", lit "ayo/EF")] (signature demo_verb)).2 ∪ ∅)
       ∅ ∅).
Proof.
  refine (conjugate_missing_level demo_gap demo_args _
            {| politeness := 2; reason := lit "polite" |}
            [(lit "a/EF", [ (1%Z, lit "a/EF"); (2%Z, lit "ayo/EF") ])] []
            [(lit "a/EF", lit "ayo/EF")] (lit "ha/VV+ayo/EF")
            [ (1%Z, lit "ha/VV+a/EF") ] demo_verb [] [] ∅ ∅ ∅ _ _ _ _ _ _);
    reflexivity.
Defined.

(** ** What the history sets can hold *)

Lemma for_acc_invariant {S A B : Type} (I : S → Prop) (l : list A)
    (body : B → A → M S B) :
  (∀ b x st r st', x ∈ l → body b x st = (r, st') → I st → I st') →
  ∀ b st r st', for_acc l b body st = (r, st') → I st → I st'.
Proof.
  induction l as [|x l IH]; intros Hbody b st r st' H HI.
  - cbn in H. by injection H as _ <-.
  - cbn [for_acc] in H. rewrite bind_eval in H.
    destruct (body b x st) as [[e|b'] st1] eqn:E.
    + injection H as _ <-. eapply Hbody; [by left | done | done].
    + eapply IH; [| done |].
      * intros ? y ? ? ? Hy. apply Hbody. by right.
      * eapply Hbody; [by left | done | done].
Qed.

Lemma conjugate_step_from_table (T : Tables) (politeness : Z) (tuned : str)
    (entry : str * dict Z str) (st : Styler.t) r (st' : Styler.t) :
  entry ∈ HONORIFICS T →
  Styler.conjugate_step politeness tuned entry st = (r, st') →
  conjugations_from_table T st → conjugations_from_table T st'.
Proof.
  destruct entry as [pattern levels]. intros Hin.
  unfold Styler.conjugate_step. unfold_monad.
  destruct (matched pattern tuned); [| by intros [= _ <-]].
  destruct (dict_get politeness levels) as [honorific|] eqn:Eh;
    intros [= _ <-]; [| done].
  intros HI pat hon. cbn. rewrite elem_of_union, elem_of_singleton.
  intros [[= -> ->] | Hold]; [eauto | by apply HI].
Qed.

Lemma conjugate_from_table (T : Tables) (st : Styler.t) r (st' : Styler.t) :
  Styler.conjugate T st = (r, st') →
  conjugations_from_table T st → conjugations_from_table T st'.
Proof.
  unfold Styler.conjugate. unfold_monad.
  destruct st as [[a|] o lg hc ha hi]; [| by intros [= _ <-]].
  destruct (dict_get (Styler.listener a) (RULES T)) as [by_environ|];
    [| by intros [= _ <-]].
  destruct (dict_get (Styler.environ a) by_environ) as [case|];
    [| by intros [= _ <-]].
  destruct o as [| |tokens]; [by intros [= _ <-] | by intros [= _ <-] |].
  destruct (for_acc _ _ _ _) as [[e|out] st1] eqn:E; intros [= _ <-] HI.
  - eapply (for_acc_invariant (conjugations_from_table T)); [| apply E | done].
    intros out0 [lex morphs] s0 r0 s1 _. unfold Styler.conjugate_token.
    rewrite bind_eval.
    destruct (for_acc _ _ _ s0) as [[e1|tuned] s2] eqn:E1; intros [= _ <-];
      eapply (for_acc_invariant (conjugations_from_table T));
      eauto using conjugate_step_from_table.
  - assert (H1 : conjugations_from_table T st1).
    { eapply (for_acc_invariant (conjugations_from_table T)); [| apply E | done].
      intros out0 [lex morphs] s0 r0 s1 _. unfold Styler.conjugate_token.
      rewrite bind_eval.
      destruct (for_acc _ _ _ s0) as [[e1|tuned] s2] eqn:E1; intros [= _ <-];
        eapply (for_acc_invariant (conjugations_from_table T));
        eauto using conjugate_step_from_table. }
    by destruct st1.
Qed.

(** X6: after a run that returns, every pair in a history set is a rule
    of the corresponding table: an abbreviation or irregular rule as it
    stands, a honorific pattern with one of its replacements. *)
Theorem call_records_only_table_rules (T : Tables) (khaiii : KhaiiiApi)
    (sent listener environ : str) (st : Styler.t) (v : value) (st' : Styler.t) :
  Styler.call T khaiii sent listener environ st = (inr v, st') →
  (∀ rule, rule ∈ Styler.history_abbreviations st' → rule ∈ ABBREVIATIONS T)
  ∧ (∀ rule, rule ∈ Styler.history_irregulars st' → rule ∈ IRREGULARS T)
  ∧ (∀ pattern honorific,
       (pattern, honorific) ∈ Styler.history_conjugations st' →
       ∃ levels politeness,
         (pattern, levels) ∈ HONORIFICS T
         ∧ dict_get politeness levels = Some honorific).
Proof.
  intros H. pose proof (call_stages T khaiii sent listener environ st) as Hs.
  cbv zeta in Hs. rewrite H in Hs.
  destruct (khaiii _) as [e|tokens]; [done |].
  destruct (check_outcome T tokens) as [e|[]]; [done |].
  destruct (Styler.conjugate T _) as [[e|[]] st1] eqn:Econj; [done |].
  destruct Hs as (conjugated & Hout & [= -> ->]).
  cbn [Styler.history_abbreviations Styler.history_irregulars
       Styler.history_conjugations]. split_and!.
  - intros rule Hin. apply cleanup_pass_applied in Hin as (r1 & r2 & -> & _).
    apply elem_of_app. right. by left.
  - intros rule Hin. apply cleanup_pass_applied in Hin as (r1 & r2 & -> & _).
    apply elem_of_app. right. by left.
  - apply (conjugate_from_table T _ _ _ Econj). intros ? ? Hin.
    cbn in Hin. by apply not_elem_of_empty in Hin.
Qed.

Lemma call_records_only_table_rules_witness :
  ∃ st', Styler.call demo demo_khaiii (Styler.sent demo_args)
           (Styler.listener demo_args) (Styler.environ demo_args) Styler.init
         = (inr (VStr (lit "nan gongbu haeyo.")), st')
    ∧ ∀ rule, rule ∈ Styler.history_abbreviations st' → rule ∈ ABBREVIATIONS demo.
Proof.
  destruct (Styler.call demo demo_khaiii (Styler.sent demo_args)
              (Styler.listener demo_args) (Styler.environ demo_args) Styler.init)
    as [r st'] eqn:E.
  assert (Hr : r = inr (VStr (lit "nan gongbu haeyo."))).
  { change r with (r, st').1. rewrite <- E. vm_compute. reflexivity. }
  subst r. exists st'. split; [reflexivity |].
  exact (proj1 (call_records_only_table_rules _ _ _ _ _ _ _ _ E)).
Defined.

(** ** A run that goes through *)

(** X7: with the analyzer returning tokens that pass [check], the rule
    for (listener, environ) present and every honorific pattern defined
    at its level, the call returns; the value is the conjugated text
    after the abbreviation pass and then the irregular pass, and the
    instance holds the four logged values and the three sets of pairs
    applied, whatever it held before. *)
Theorem call_composes (T : Tables) (khaiii : KhaiiiApi)
    (sent listener environ : str) (st : Styler.t) (tokens : list KhaiiiWord)
    (by_environ : dict str Case) (case : Case) (rules : dict str str) :
  khaiii (Styler.punctuate (Py.strip sent)) = inr tokens →
  (Styler.check T (Styler.set_out (VTokens tokens) Styler.init)).1 = inr tt →
  dict_get listener (RULES T) = Some by_environ →
  dict_get environ by_environ = Some case →
  at_level (politeness case) (HONORIFICS T) = Some rules →
  let conjugated := Py.join [space] (map (emit rules) tokens) in
  let abbr := cleanup_pass (ABBREVIATIONS T) conjugated in
  let irr := cleanup_pass (IRREGULARS T) abbr.1 in
  Styler.call T khaiii sent listener environ st
  = (inr (VStr irr.1),
     Styler.mk (Some {| Styler.sent := sent; Styler.listener := listener;
                        Styler.environ := environ |})
       (VStr irr.1)
       [VTokens tokens; VStr conjugated; VStr abbr.1; VStr irr.1]
       (conjugation_pairs rules tokens) abbr.2 irr.2).
Proof.
  intros Hk Hc H1 H2 Hlv conjugated abbr irr.
  rewrite (check_eval T tokens) in Hc by done. cbn [fst] in Hc.
  pose proof (call_stages T khaiii sent listener environ st) as Hs.
  cbv zeta in Hs. rewrite Hk, Hc in Hs. unfold validated in Hs.
  rewrite (conjugate_eval T _ by_environ case rules) in Hs by done.
  destruct Hs as (c & [= <-] & Hs). rewrite Hs.
  cbn [Styler.history_conjugations Styler.args preprocessed].
  by rewrite (right_id_L ∅ (∪)).
Qed.

Lemma call_composes_witness :
  Styler.call demo demo_khaiii (Styler.sent demo_args) (Styler.listener demo_args)
              (Styler.environ demo_args) Styler.init
  = (let conjugated := Py.join [space] (map (emit demo_rules) demo_tokens) in
     let abbr := cleanup_pass (ABBREVIATIONS demo) conjugated in
     let irr := cleanup_pass (IRREGULARS demo) abbr.1 in
     (inr (VStr irr.1),
      Styler.mk (Some demo_args) (VStr irr.1)
        [VTokens demo_tokens; VStr conjugated; VStr abbr.1; VStr irr.1]
        (conjugation_pairs demo_rules demo_tokens) abbr.2 irr.2)).
Proof.
  refine (call_composes demo demo_khaiii _ _ _ Styler.init demo_tokens _ _
            demo_rules _ _ _ _ _); reflexivity.
Defined.

(** ** Cleanup rules that find nothing *)

Lemma cleanup_pass_no_occurrence (rules : dict str str) (text : str) :
  Forall (λ rule, ¬ occurs_in rule.1 text) rules →
  cleanup_pass rules text = (text, ∅).
Proof.
  unfold cleanup_pass. induction rules as [|[key val] rules IH]; [done |].
  intros Hall. apply Forall_cons in Hall as [Hk Hall]. cbn [rule_pass].
  destruct (Py.contains key text) eqn:E; [| by apply IH].
  apply contains_spec in E. by destruct Hk.
Qed.

(** X8: when no key of the abbreviation table and no key of the
    irregular table occurs in the text, the two cleanup stages leave the
    instance exactly as it was: same text, nothing recorded. *)
Theorem cleanup_without_occurrence (T : Tables) (st : Styler.t) (text : str) :
  Forall (λ rule, ¬ occurs_in rule.1 text) (ABBREVIATIONS T) →
  Forall (λ rule, ¬ occurs_in rule.1 text) (IRREGULARS T) →
  let st0 := Styler.set_out (VStr text) st in
  Styler.abbreviate T st0 = (inr tt, st0)
  ∧ Styler.apply_irregulars T st0 = (inr tt, st0)
  ∧ (Styler.abbreviate T ;; Styler.apply_irregulars T) st0 = (inr tt, st0).
Proof.
  intros Ha Hi st0. subst st0. destruct st as [a o lg hc ha hi].
  unfold Styler.set_out. cbn [Styler.args Styler.logs Styler.history_conjugations
    Styler.history_abbreviations Styler.history_irregulars].
  assert (H1 : Styler.abbreviate T (Styler.mk a (VStr text) lg hc ha hi)
               = (inr tt, Styler.mk a (VStr text) lg hc ha hi)).
  { unfold Styler.abbreviate. rewrite abbreviate_eval.
    rewrite cleanup_pass_no_occurrence by done. cbn [fst snd].
    by rewrite (left_id_L ∅ (∪)). }
  assert (H2 : Styler.apply_irregulars T (Styler.mk a (VStr text) lg hc ha hi)
               = (inr tt, Styler.mk a (VStr text) lg hc ha hi)).
  { unfold Styler.apply_irregulars. rewrite apply_irregulars_eval.
    rewrite cleanup_pass_no_occurrence by done. cbn [fst snd].
    by rewrite (left_id_L ∅ (∪)). }
  split_and!; [done | done |]. by rewrite bind_eval, H1.
Qed.

Lemma cleanup_without_occurrence_witness :
  let st0 := Styler.set_out (VStr (lit "gongbu haeyo.")) Styler.init in
  Styler.abbreviate demo st0 = (inr tt, st0)
  ∧ Styler.apply_irregulars demo st0 = (inr tt, st0)
  ∧ (Styler.abbreviate demo ;; Styler.apply_irregulars demo) st0 = (inr tt, st0).
Proof.
  apply (cleanup_without_occurrence demo Styler.init (lit "gongbu haeyo."));
    repeat constructor; intros Hocc; apply contains_spec in Hocc; discriminate Hocc.
Defined.

(** ** [Styler.preprocess] again *)

Lemma lstrip_id (t : str) :
  (∀ c, head t = Some c → Py.isspace c = false) → Py.lstrip t = t.
Proof.
  destruct t as [|c t]; [done |]. intros H. cbn. by rewrite (H c).
Qed.

Lemma strip_id (t : str) :
  (∀ c, head t = Some c → Py.isspace c = false) →
  (∀ c, last t = Some c → Py.isspace c = false) →
  Py.strip t = t.
Proof.
  intros Hh Hl. unfold Py.strip, Py.rstrip. rewrite (lstrip_id t) by done.
  rewrite lstrip_id; [apply rev_involutive |].
  intros c. rewrite rev_reverse, head_reverse. apply Hl.
Qed.

Lemma is_final_punctuation_no_space (c : N) :
  is_final_punctuation c = true → Py.isspace c = false.
Proof.
  unfold is_final_punctuation. rewrite bool_decide_eq_true.
  by intros [-> | [-> | ->]].
Qed.

Lemma ensure_final_punctuation_last (u : str) :
  ∃ c, last (ensure_final_punctuation u) = Some c ∧ is_final_punctuation c = true.
Proof.
  unfold ensure_final_punctuation. destruct (last u) as [c|] eqn:E.
  - destruct (is_final_punctuation c) eqn:Ec; [eauto |].
    exists period. by rewrite last_snoc.
  - exists period. by rewrite last_snoc.
Qed.

(** X9: the text [preprocess] stores is never empty, ends with one of
    ["."], ["?"], ["!"] and has no whitespace at either end; given back
    as the sentence, it is stored unchanged ([preprocess] is
    idempotent). *)
Theorem preprocess_idempotent (sent listener environ : str) (st : Styler.t) :
  let text := Styler.punctuate (Py.strip sent) in
  let st_of s := Styler.set_args {| Styler.sent := s; Styler.listener := listener;
                                    Styler.environ := environ |} st in
  Styler.preprocess (st_of sent) = (inr tt, Styler.set_out (VStr text) (st_of sent))
  ∧ Styler.preprocess (st_of text) = (inr tt, Styler.set_out (VStr text) (st_of text))
  ∧ (∃ c, last text = Some c ∧ (c = period ∨ c = qmark ∨ c = bang))
  ∧ (∀ c, head text = Some c → Py.isspace c = false).
Proof.
  intros text st_of.
  assert (Hlast : ∃ c, last text = Some c ∧ is_final_punctuation c = true).
  { subst text. rewrite punctuate_spec. apply ensure_final_punctuation_last. }
  assert (Hhead : ∀ c, head text = Some c → Py.isspace c = false).
  { subst text. rewrite punctuate_spec. unfold ensure_final_punctuation.
    destruct (strip_spec sent) as (ws1 & ws2 & _ & _ & _ & Hh & _).
    destruct (Py.strip sent) as [|d u] eqn:Eu.
    - cbn. by intros c [= <-].
    - assert (Hd : ∀ c, head ((d :: u) ++ [period]) = Some c → Py.isspace c = false)
        by (intros c [= <-]; by apply Hh).
      destruct (last (d :: u)) as [c'|]; [destruct (is_final_punctuation c') |];
        done. }
  assert (Hfix : Styler.punctuate (Py.strip text) = text).
  { destruct Hlast as (c & Hc & Hp). rewrite strip_id; [| done |].
    - rewrite punctuate_spec. unfold ensure_final_punctuation. by rewrite Hc, Hp.
    - intros c' Hc'. rewrite Hc in Hc'. injection Hc' as <-.
      by apply is_final_punctuation_no_space. }
  split_and!; [done | | | done].
  - subst st_of. cbn. unfold Styler.preprocess. unfold_monad.
    cbn [Styler.sent]. by rewrite Hfix.
  - destruct Hlast as (c & Hc & Hp). exists c. split; [done |].
    unfold is_final_punctuation in Hp. by apply bool_decide_eq_true in Hp.
Qed.

(** ** [Tuner.apply_honorifics] *)

Lemma combinations2_spec (n i j : nat) :
  (i, j) ∈ Tuner.combinations2 n ↔ i < j ≤ n.
Proof.
  unfold Tuner.combinations2. rewrite list_elem_of_In, in_flat_map. split.
  - intros (i' & Hi & Hj). apply list_elem_of_In, elem_of_seq in Hi.
    apply list_elem_of_In, list_elem_of_fmap in Hj as (j' & [= -> ->] & Hj).
    apply elem_of_seq in Hj. lia.
  - intros Hij. exists i. split.
    + apply list_elem_of_In, elem_of_seq. lia.
    + apply list_elem_of_In, list_elem_of_fmap. exists j. split; [done |].
      apply elem_of_seq. lia.
Qed.

(** A span test that holds names a run of morphemes that is a key. *)
Lemma some_span_is_key_run (T : Tables) (morphs : list str) :
  Tuner.some_span_is_key T morphs = true →
  ∃ i j, i < j ≤ length morphs
    ∧ Py.join [plus] (Tuner.slice morphs i j) ∈ map fst (HONORIFICS T).
Proof.
  unfold Tuner.some_span_is_key. intros (sub & Hin & Hkey)%existsb_exists.
  apply bool_decide_eq_true in Hkey.
  apply list_elem_of_In, list_elem_of_fmap in Hin as ([i j] & -> & Hij).
  apply combinations2_spec in Hij. eauto.
Qed.

(** X10: the test [set(substrings) & set(HONORIFICS.keys())] of the
    older variant holds exactly when some non-empty run of consecutive
    morphemes, joined with ["+"], is a key of the honorific table. *)
Theorem some_span_is_key_spec (T : Tables) (morphs : list str) :
  Tuner.some_span_is_key T morphs = true
  ↔ ∃ i j, i < j ≤ length morphs
      ∧ Py.join [plus] (Tuner.slice morphs i j) ∈ map fst (HONORIFICS T).
Proof.
  unfold Tuner.some_span_is_key. rewrite existsb_exists. split.
  - intros (sub & Hin & Hkey). apply bool_decide_eq_true in Hkey.
    apply list_elem_of_In, list_elem_of_fmap in Hin as ([i j] & -> & Hij).
    apply combinations2_spec in Hij. eauto.
  - intros (i & j & Hij & Hkey). exists (Py.join [plus] (Tuner.slice morphs i j)).
    split; [| by apply bool_decide_eq_true].
    apply list_elem_of_In, list_elem_of_fmap. exists (i, j).
    split; [done |]. by apply combinations2_spec.
Qed.

Lemma join_app (sep : str) (l1 l2 : list str) :
  l1 ≠ [] → l2 ≠ [] →
  Py.join sep (l1 ++ l2) = Py.join sep l1 ++ sep ++ Py.join sep l2.
Proof.
  induction l1 as [|a l1 IH]; [done |]. intros _ Hl2.
  destruct l1 as [|b l1].
  - destruct l2; done.
  - change ((a :: b :: l1) ++ l2) with (a :: ((b :: l1) ++ l2)).
    change (Py.join sep (a :: (b :: l1) ++ l2))
      with (a ++ sep ++ Py.join sep ((b :: l1) ++ l2)).
    rewrite IH by done. cbn [Py.join]. by rewrite <- !app_assoc.
Qed.

(** A run of consecutive morphemes occurs in the joined signature on
    ["+"] boundaries. *)
Lemma span_anchored (morphs : list str) (i j : nat) :
  i < j ≤ length morphs →
  anchored (Py.join [plus] (Tuner.slice morphs i j)) (Py.join [plus] morphs).
Proof.
  intros Hij. unfold Tuner.slice.
  set (mid := take (j - i) (drop i morphs)).
  assert (Hmid : mid ≠ []).
  { intros H. apply (f_equal length) in H. subst mid.
    rewrite length_take, length_drop in H. simpl in H. lia. }
  assert (Hsplit : morphs = take i morphs ++ mid ++ drop j morphs).
  { subst mid. rewrite <- (take_drop i morphs) at 1. f_equal.
    rewrite <- (take_drop (j - i) (drop i morphs)) at 1. f_equal.
    rewrite drop_drop. f_equal. lia. }
  rewrite Hsplit at 1.
  destruct (take i morphs) as [|a l1] eqn:E1; destruct (drop j morphs) as [|b l2] eqn:E2.
  - exists [], []. rewrite !app_nil_r. cbn. split_and!; [done | by left | by left].
  - exists [], ([plus] ++ Py.join [plus] (b :: l2)).
    cbn [app]. rewrite join_app by done. split_and!; [done | by left | right; eauto].
  - exists (Py.join [plus] (a :: l1) ++ [plus]), [].
    rewrite !app_nil_r. rewrite join_app by done.
    split_and!; [by rewrite <- app_assoc | right; eauto | by left].
  - exists (Py.join [plus] (a :: l1) ++ [plus]), ([plus] ++ Py.join [plus] (b :: l2)).
    rewrite join_app; [| done | by destruct mid]. rewrite join_app by done.
    split_and!; [by rewrite <- !app_assoc | right; eauto | right; eauto].
Qed.

(** X11: the two variants agree in one direction: when the span test of
    the older variant holds for a token whose joined signature has no
    newline, [Styler.matched] accepts one of the keys on that signature
    (the token is supported in the sense of [check]). *)
Theorem span_key_is_matched (T : Tables) (morphs : list str) :
  Re.newline ∉ Py.join [plus] morphs →
  Tuner.some_span_is_key T morphs = true →
  Styler.supported T (Py.join [plus] morphs) = true.
Proof.
  intros Hnl Hspan. apply some_span_is_key_run in Hspan as (i & j & Hij & Hkey).
  apply list_elem_of_fmap in Hkey as ([pattern levels] & Hp & Hin).
  apply supported_spec. exists pattern, levels. split; [done |].
  apply matched_anchored_iff; [done |]. cbn in Hp. rewrite <- Hp.
  by apply span_anchored.
Qed.

Lemma span_key_is_matched_witness :
  Styler.supported demo (Py.join [plus] [lit "ha/VV"; lit "a/EF"; lit "./SF"]) = true.
Proof.
  apply span_key_is_matched.
  - apply (bool_decide_unpack _). vm_compute. exact I.
  - reflexivity.
Defined.

Lemma honorific_steps_eval (politeness : Z) (table : dict str (dict Z str))
    (rules : dict str str) (tuned : str) s l v o lg hh ha hi :
  at_level politeness table = Some rules →
  for_acc table tuned (Tuner.honorific_step politeness) (Tuner.mk s l v o lg hh ha hi)
  = (inr (replace_all rules tuned),
     Tuner.mk s l v o lg (list_to_set rules ∪ hh) ha hi).
Proof.
  revert rules tuned hh; induction table as [|[pattern levels] table IH];
    intros rules tuned hh Hlv.
  - injection Hlv as <-. cbn. do 2 f_equal. set_solver.
  - cbn [at_level] in Hlv.
    destruct (dict_get politeness levels) as [honorific|] eqn:Eh; [| done].
    destruct (at_level politeness table) as [rules'|] eqn:Er; [| done].
    injection Hlv as <-. cbn [for_acc]. rewrite bind_eval.
    assert (Hstep :
      Tuner.honorific_step politeness tuned (pattern, levels)
        (Tuner.mk s l v o lg hh ha hi)
      = (inr (Py.replace pattern honorific tuned),
         Tuner.mk s l v o lg ({[(pattern, honorific)]} ∪ hh) ha hi)).
    { unfold Tuner.honorific_step. unfold_tuner. by rewrite Eh. }
    rewrite Hstep, (IH rules') by done. cbn. do 2 f_equal. set_solver.
Qed.

Lemma honorifics_tokens_eval (T : Tables) (politeness : Z) (rules : dict str str)
    (tokens : list KhaiiiWord) (out0 : list str) s l v o lg hh ha hi :
  at_level politeness (HONORIFICS T) = Some rules →
  for_acc (map (λ token, (lex token, map morph_str (morphs token))) tokens) out0
          (Tuner.honorifics_token T politeness) (Tuner.mk s l v o lg hh ha hi)
  = (inr (out0 ++ map (tuner_emit T rules) tokens),
     Tuner.mk s l v o lg
       ((if existsb (has_span_key T) tokens then list_to_set rules else ∅) ∪ hh)
       ha hi).
Proof.
  intros Hlv. revert out0 hh; induction tokens as [|token tokens IH]; intros out0 hh.
  - cbn. rewrite app_nil_r. do 2 f_equal. set_solver.
  - cbn [map for_acc existsb]. rewrite bind_eval.
    unfold Tuner.honorifics_token at 1. unfold tuner_emit at 1, has_span_key at 1.
    destruct (Tuner.some_span_is_key T _) eqn:Es.
    + rewrite bind_eval, (honorific_steps_eval _ _ rules) by done.
      cbn [mret M_ret orb]. rewrite IH, <- app_assoc. do 2 f_equal.
      destruct (existsb _ tokens); set_solver.
    + cbn [mret M_ret orb]. by rewrite IH, <- app_assoc.
Qed.

(** X12: the older variant does not test the patterns one by one: as
    soon as some token has a run of morphemes equal to a key, every
    pattern of the table is replaced in that token's signature and every
    (pattern, replacement) pair of the table is recorded, whether the
    pattern occurs or not; a token without such a run is emitted as its
    lexical form. *)
Theorem tuner_records_every_rule (T : Tables) (sent listener visibility : str)
    (by_visibility : dict str Case) (case : Case) (rules : dict str str)
    (tokens : list KhaiiiWord) lg hh ha hi :
  dict_get listener (RULES T) = Some by_visibility →
  dict_get visibility by_visibility = Some case →
  at_level (politeness case) (HONORIFICS T) = Some rules →
  Tuner.apply_honorifics T
    (Tuner.mk (Some sent) (Some listener) (Some visibility) (VTokens tokens)
              lg hh ha hi)
  = (inr tt,
     Tuner.mk (Some sent) (Some listener) (Some visibility)
       (VStr (Py.join [space] (map (tuner_emit T rules) tokens))) lg
       ((if existsb (has_span_key T) tokens then list_to_set rules else ∅) ∪ hh)
       ha hi).
Proof.
  intros H1 H2 Hlv. unfold Tuner.apply_honorifics. unfold_tuner.
  rewrite H1, H2. by rewrite (honorifics_tokens_eval _ _ rules).
Qed.

Lemma tuner_records_every_rule_witness :
  Tuner.apply_honorifics demo_unused
    (Tuner.mk (Some (lit "hae")) (Some (lit "friend")) (Some (lit "public"))
              (VTokens [demo_verb]) [] ∅ ∅ ∅)
  = (inr tt,
     Tuner.mk (Some (lit "hae")) (Some (lit "friend")) (Some (lit "public"))
       (VStr (lit "haeyo.")) []
       (list_to_set (demo_rules ++ [(lit "sida/EF", lit "seyo/EF")]) ∪ ∅) ∅ ∅).
Proof.
  refine (tuner_records_every_rule demo_unused _ _ _ _ _
            (demo_rules ++ [(lit "sida/EF", lit "seyo/EF")]) [demo_verb]
            [] ∅ ∅ ∅ _ _ _); reflexivity.
Defined.

Lemma honorifics_tokens_no_span (T : Tables) (politeness : Z)
    (tokens : list KhaiiiWord) (out0 : list str) (st : Tuner.t) :
  Forall (λ token, Tuner.some_span_is_key T (map morph_str (morphs token)) = false)
         tokens →
  for_acc (map (λ token, (lex token, map morph_str (morphs token))) tokens) out0
          (Tuner.honorifics_token T politeness) st
  = (inr (out0 ++ map lex tokens), st).
Proof.
  revert out0; induction tokens as [|token tokens IH]; intros out0 Hall.
  - cbn. by rewrite app_nil_r.
  - apply Forall_cons in Hall as [H1 Hall]. cbn [map for_acc]. rewrite bind_eval.
    unfold Tuner.honorifics_token at 1. rewrite H1. cbn [mret M_ret].
    by rewrite IH, <- app_assoc.
Qed.

(** X13: in the older variant, when no token has a run of morphemes
    equal to a key, the stage output is the tokens' lexical forms joined
    with single spaces and nothing is recorded, whatever the morphemes
    contain and whatever levels the table defines. *)
Theorem tuner_keeps_tokens_without_span_key (T : Tables)
    (sent listener visibility : str) (by_visibility : dict str Case) (case : Case)
    (tokens : list KhaiiiWord) lg hh ha hi :
  dict_get listener (RULES T) = Some by_visibility →
  dict_get visibility by_visibility = Some case →
  Forall (λ token, Tuner.some_span_is_key T (map morph_str (morphs token)) = false)
         tokens →
  Tuner.apply_honorifics T
    (Tuner.mk (Some sent) (Some listener) (Some visibility) (VTokens tokens)
              lg hh ha hi)
  = (inr tt,
     Tuner.mk (Some sent) (Some listener) (Some visibility)
       (VStr (Py.join [space] (map lex tokens))) lg hh ha hi).
Proof.
  intros H1 H2 Hall. unfold Tuner.apply_honorifics. unfold_tuner.
  rewrite H1, H2. by rewrite honorifics_tokens_no_span.
Qed.

Lemma tuner_keeps_tokens_without_span_key_witness :
  Tuner.apply_honorifics demo
    (Tuner.mk (Some (lit "1+1")) (Some (lit "friend")) (Some (lit "public"))
              (VTokens sum_tokens) [] ∅ ∅ ∅)
  = (inr tt,
     Tuner.mk (Some (lit "1+1")) (Some (lit "friend")) (Some (lit "public"))
       (VStr (Py.join [space] (map lex sum_tokens))) [] ∅ ∅ ∅).
Proof.
  refine (tuner_keeps_tokens_without_span_key demo _ _ _ _ _ sum_tokens
            [] ∅ ∅ ∅ _ _ _); [reflexivity | reflexivity |].
  repeat constructor.
Defined.

(** ** How a run of the older variant can fail *)

Lemma honorific_step_error (politeness : Z) (tuned : str) (entry : str * dict Z str)
    (st : Tuner.t) (e : exn) (st' : Tuner.t) :
  Tuner.honorific_step politeness tuned entry st = (inl e, st') →
  e = KeyError (KInt politeness).
Proof.
  destruct entry as [pattern levels]. unfold Tuner.honorific_step. unfold_tuner.
  destruct (dict_get politeness levels); [done |]. by intros [= <- _].
Qed.

Lemma honorifics_token_error (T : Tables) (politeness : Z) (out : list str)
    (token : str * list str) (st : Tuner.t) (e : exn) (st' : Tuner.t) :
  Tuner.honorifics_token T politeness out token st = (inl e, st') →
  e = KeyError (KInt politeness).
Proof.
  destruct token as [lex morphs]. unfold Tuner.honorifics_token.
  destruct (Tuner.some_span_is_key T morphs); [| done].
  rewrite bind_eval.
  destruct (for_acc _ _ _ st) as [[e1|tuned] st1] eqn:E; [| done].
  intros [= <- _].
  by eapply (for_acc_error (λ e, e = KeyError (KInt politeness)));
    [apply honorific_step_error | apply E].
Qed.

Lemma apply_honorifics_error (T : Tables) (sent listener visibility : str)
    (tokens : list KhaiiiWord) lg hh ha hi (e : exn) (st1 : Tuner.t) :
  Tuner.apply_honorifics T
    (Tuner.mk (Some sent) (Some listener) (Some visibility) (VTokens tokens)
              lg hh ha hi) = (inl e, st1) →
  (∃ k, e = KeyError k) ∧ Tuner.logs st1 = lg.
Proof.
  unfold Tuner.apply_honorifics. unfold_tuner.
  destruct (dict_get listener (RULES T)) as [by_visibility|]; cbv beta iota;
    [| intros [= <- <-]; split; [eauto | done]].
  destruct (dict_get visibility by_visibility) as [case|]; cbv beta iota;
    [| intros [= <- <-]; split; [eauto | done]].
  destruct (for_acc _ _ _ _) as [[e1|out] st2] eqn:E; [| done].
  intros [= <- <-]. split.
  - exists (KInt (politeness case)).
    by eapply (for_acc_error (λ e, e = KeyError (KInt (politeness case))));
      [apply honorifics_token_error | apply E].
  - apply (for_acc_preserves only_honorifics) in E as (?&?&?&?&?&?&?);
      [done | apply honorifics_token_frame].
Qed.

(** A failed run of the older variant has logged at most the tokens. *)
Lemma tuner_failed_logs (T : Tables) (khaiii : KhaiiiApi)
    (sent listener visibility : str) (st : Tuner.t) (e : exn) (st' : Tuner.t) :
  Tuner.call T khaiii sent listener visibility st = (inl e, st') →
  Tuner.logs st' = [] ∨ ∃ tokens, Tuner.logs st' = [VTokens tokens].
Proof.
  rewrite tuner_call_from_fresh. unfold tuner_pipeline.
  rewrite bind_eval, for_cons_eval, tuner_analyze_eval.
  destruct (khaiii _) as [e0|tokens] eqn:Ek; [intros [= <- <-]; by left |].
  rewrite for_cons_eval, tuner_log_eval, for_cons_eval. cbn [app].
  destruct (Tuner.apply_honorifics T _) as [[e0|[]] st1] eqn:Eh.
  { intros [= <- <-]. apply apply_honorifics_error in Eh as [[k ->] Hl].
    right; rewrite Hl; eauto. }
  apply apply_honorifics_frame in Eh as (tuned & Hout & Hs & Hl & Hha & Hhi).
  destruct st1 as [s1 l1 v1 o1 lg1 hh1 ha1 hi1].
  cbn in Hout, Hs, Hl, Hha, Hhi. subst.
  rewrite for_cons_eval, tuner_log_eval, for_cons_eval.
  unfold Tuner.apply_abbreviations. rewrite tuner_abbreviations_eval.
  rewrite for_cons_eval, tuner_log_eval, for_cons_eval.
  unfold Tuner.apply_irregulars. rewrite tuner_irregulars_eval.
  rewrite for_cons_eval, tuner_log_eval, for_cons_eval, tuner_postprocess_eval.
  cbn. done.
Qed.

(** X14: the older variant has no validation stage: a run fails only
    with the analyzer's own error, before anything is logged, or with a
    [KeyError] raised while applying the honorifics, after the tokens
    were logged; a sentence without a final ending is not refused. *)
Theorem tuner_call_failure_modes (T : Tables) (khaiii : KhaiiiApi)
    (sent listener visibility : str) (st : Tuner.t) (e : exn) (st' : Tuner.t) :
  Tuner.call T khaiii sent listener visibility st = (inl e, st') →
  khaiii (tuner_preprocessed sent) = inl e ∧ Tuner.logs st' = []
  ∨ ∃ tokens k, khaiii (tuner_preprocessed sent) = inr tokens
      ∧ e = KeyError k ∧ Tuner.logs st' = [VTokens tokens].
Proof.
  rewrite tuner_call_from_fresh. unfold tuner_pipeline.
  rewrite bind_eval, for_cons_eval, tuner_analyze_eval.
  destruct (khaiii _) as [e0|tokens] eqn:Ek; [intros [= <- <-]; by left |].
  rewrite for_cons_eval, tuner_log_eval, for_cons_eval. cbn [app].
  destruct (Tuner.apply_honorifics T _) as [[e0|[]] st1] eqn:Eh.
  { intros [= <- <-]. apply apply_honorifics_error in Eh as [[k ->] Hl].
    right; eauto. }
  apply apply_honorifics_frame in Eh as (tuned & Hout & Hs & Hl & Hha & Hhi).
  destruct st1 as [s1 l1 v1 o1 lg1 hh1 ha1 hi1].
  cbn in Hout, Hs, Hl, Hha, Hhi. subst.
  rewrite for_cons_eval, tuner_log_eval, for_cons_eval.
  unfold Tuner.apply_abbreviations. rewrite tuner_abbreviations_eval.
  rewrite for_cons_eval, tuner_log_eval, for_cons_eval.
  unfold Tuner.apply_irregulars. rewrite tuner_irregulars_eval.
  rewrite for_cons_eval, tuner_log_eval, for_cons_eval, tuner_postprocess_eval.
  cbn. done.
Qed.

Lemma tuner_call_failure_modes_witness :
  ∃ st', Tuner.call demo demo_khaiii (lit "naneun gongbu hae") (lit "boss")
           (lit "private") Tuner.init
         = (inl (KeyError (KStr (lit "private"))), st')
    ∧ (demo_khaiii (tuner_preprocessed (lit "naneun gongbu hae"))
       = inl (KeyError (KStr (lit "private"))) ∧ Tuner.logs st' = []
       ∨ ∃ tokens k, demo_khaiii (tuner_preprocessed (lit "naneun gongbu hae"))
                     = inr tokens
           ∧ KeyError (KStr (lit "private")) = KeyError k
           ∧ Tuner.logs st' = [VTokens tokens]).
Proof.
  destruct (Tuner.call demo demo_khaiii (lit "naneun gongbu hae") (lit "boss")
              (lit "private") Tuner.init) as [r st'] eqn:E.
  assert (Hr : r = inl (KeyError (KStr (lit "private")))).
  { change r with (r, st').1. rewrite <- E. vm_compute. reflexivity. }
  subst r. exists st'. split; [reflexivity |].
  exact (tuner_call_failure_modes _ _ _ _ _ _ _ _ E).
Defined.

(** ** The explainer of the older variant *)

Lemma apply_honorifics_success (T : Tables) (sent listener visibility : str)
    (tokens : list KhaiiiWord) lg hh ha hi (st1 : Tuner.t) :
  Tuner.apply_honorifics T
    (Tuner.mk (Some sent) (Some listener) (Some visibility) (VTokens tokens)
              lg hh ha hi) = (inr tt, st1) →
  ∃ by_visibility case tuned hh',
    dict_get listener (RULES T) = Some by_visibility
    ∧ dict_get visibility by_visibility = Some case
    ∧ st1 = Tuner.mk (Some sent) (Some listener) (Some visibility) (VStr tuned)
                     lg hh' ha hi.
Proof.
  unfold Tuner.apply_honorifics. unfold_tuner.
  destruct (dict_get listener (RULES T)) as [by_visibility|] eqn:E1;
    cbv beta iota; [| done].
  destruct (dict_get visibility by_visibility) as [case|] eqn:E2;
    cbv beta iota; [| done].
  destruct (for_acc _ _ _ _) as [[e1|out] st2] eqn:E; [done |].
  intros [= <-].
  apply (for_acc_preserves only_honorifics) in E as (?&?&?&?&?&?&?);
    [| apply honorifics_token_frame].
  destruct st2 as [s2 l2 v2 o2 lg2 hh2 ha2 hi2]. cbn in *. subst.
  eauto 10.
Qed.

(** The instance after a run of the older variant that returned. *)
Lemma tuner_call_success (T : Tables) (khaiii : KhaiiiApi)
    (sent listener visibility : str) (st : Tuner.t) (v : value) (st' : Tuner.t) :
  Tuner.call T khaiii sent listener visibility st = (inr v, st') →
  ∃ by_visibility case tokens tuned hh,
    dict_get listener (RULES T) = Some by_visibility
    ∧ dict_get visibility by_visibility = Some case
    ∧ let abbr := cleanup_pass (ABBREVIATIONS T) tuned in
      let irr := cleanup_pass (IRREGULARS T) abbr.1 in
      st' = Tuner.mk (Some sent) (Some listener) (Some visibility) v
              [VTokens tokens; VStr tuned; VStr abbr.1; VStr irr.1]
              hh abbr.2 irr.2.
Proof.
  rewrite tuner_call_from_fresh. unfold tuner_pipeline.
  rewrite bind_eval, for_cons_eval, tuner_analyze_eval.
  destruct (khaiii _) as [e|tokens] eqn:Ek; [done |].
  rewrite for_cons_eval, tuner_log_eval, for_cons_eval. cbn [app].
  destruct (Tuner.apply_honorifics T _) as [[e|[]] st1] eqn:Eh; [done |].
  apply apply_honorifics_success in Eh
    as (by_visibility & case & tuned & hh & H1 & H2 & ->).
  rewrite for_cons_eval, tuner_log_eval, for_cons_eval.
  unfold Tuner.apply_abbreviations. rewrite tuner_abbreviations_eval.
  rewrite for_cons_eval, tuner_log_eval, for_cons_eval.
  unfold Tuner.apply_irregulars. rewrite tuner_irregulars_eval.
  rewrite for_cons_eval, tuner_log_eval, for_cons_eval, tuner_postprocess_eval.
  cbn. intros [= <- <-]. exists by_visibility, case, tokens, tuned, hh.
  split_and!; [done | done |]. cbn zeta. by rewrite !(right_id_L ∅ (∪)).
Qed.

(** X15: after a run of the older variant that returned, the explainer
    does not fail, whatever the order in which the history sets are
    gone through: it returns five messages, the first of which names the
    style of the politeness level of the (listener, visibility) rule and
    gives its reason. *)
Theorem explainer_after_run (T : Tables) (khaiii : KhaiiiApi)
    (iter : gset (str * str) → list (str * str))
    (sent listener visibility : str) (st : Tuner.t) (v : value) (st' : Tuner.t) :
  Tuner.call T khaiii sent listener visibility st = (inr v, st') →
  ∃ by_visibility case msgs,
    dict_get listener (RULES T) = Some by_visibility
    ∧ dict_get visibility by_visibility = Some case
    ∧ (Explainer.call T iter st').2 = inr msgs
    ∧ length msgs = 5
    ∧ msgs !! 0
      = Some (lit "### " ++ Explainer.keycap "1"
              ++ lit " Determine the level of politeness"
              ++ Explainer.nl ++ lit "You should speak in `"
              ++ Explainer.politeness_name (politeness case) ++ lit "`."
              ++ Explainer.nl ++ Explainer.nl ++ lit " Why? " ++ reason case).
Proof.
  intros H. apply tuner_call_success in H
    as (by_visibility & case & tokens & tuned & hh & H1 & H2 & ->).
  exists by_visibility, case. cbn zeta.
  unfold Explainer.call, Explainer.msg_1, Explainer.msg_2, Explainer.msg_3,
    Explainer.msg_4, Explainer.msg_5, Explainer.msg_with, Explainer.log_at,
    Explainer.subscript.
  cbn [Tuner.listener Tuner.visibility Tuner.logs Tuner.sent
       Tuner.history_honorifics Tuner.history_abbreviations
       Tuner.history_irregulars lookup list_lookup].
  rewrite H1. cbn [Explainer.ebind]. rewrite H2.
  cbn [Explainer.ebind Explainer.as_tokens Explainer.as_str].
  destruct (bool_decide (_ ≠ ∅)); destruct (bool_decide (_ ≠ ∅));
    cbn [Explainer.ebind Explainer.as_tokens Explainer.as_str snd];
    eexists; split_and!; reflexivity.
Qed.

Lemma explainer_after_run_witness :
  ∃ st' msgs,
    Tuner.call tuner_demo demo_khaiii (lit "naneun gongbu hae") (lit "friend")
               (lit "public") Tuner.init
    = (inr (VStr (lit "nan gongbu haey")), st')
    ∧ (Explainer.call tuner_demo elements st').2 = inr msgs
    ∧ length msgs = 5.
Proof.
  destruct (Tuner.call tuner_demo demo_khaiii (lit "naneun gongbu hae")
              (lit "friend") (lit "public") Tuner.init) as [r st'] eqn:E.
  assert (Hr : r = inr (VStr (lit "nan gongbu haey"))).
  { change r with (r, st').1. rewrite <- E. vm_compute. reflexivity. }
  subst r.
  destruct (explainer_after_run tuner_demo demo_khaiii elements _ _ _ _ _ _ E)
    as (by_visibility & case & msgs & _ & _ & Hm & Hlen & _).
  exists st', msgs. split; [reflexivity |]. split; [exact Hm | exact Hlen].
Defined.

(** X16: the explainer needs a run that returned.  After a run of the
    older variant that failed it fails as well (the log was cleared when
    the run started and holds at most the tokens, so no explanation of
    an earlier run is given), and asked before any run it fails with
    [KeyError] on the listener [None]; nothing is printed. *)
Theorem explainer_after_failed_run (T : Tables) (khaiii : KhaiiiApi)
    (iter : gset (str * str) → list (str * str))
    (sent listener visibility : str) (st : Tuner.t) (e : exn) (st' : Tuner.t) :
  Tuner.call T khaiii sent listener visibility st = (inl e, st') →
  (∃ e', Explainer.call T iter st' = ([], inl e'))
  ∧ Explainer.call T iter Tuner.init = ([], inl (Explainer.KeyError None)).
Proof.
  intros H. split; [| reflexivity]. apply tuner_failed_logs in H.
  assert (Hlogs : Tuner.logs st' !! 1 = None ∧
            (Tuner.logs st' !! 0 = None ∨ ∃ tokens, Tuner.logs st' !! 0 = Some (VTokens tokens))).
  { destruct H as [-> | (tokens & ->)]; [by split; [| left] |].
    split; [done |]. right. eauto. }
  destruct Hlogs as [Hl1 Hl0].
  unfold Explainer.call, Explainer.msg_2, Explainer.msg_3, Explainer.log_at.
  rewrite Hl1. destruct (Explainer.msg_1 T st') as [e1|m1]; [eauto |].
  cbn [Explainer.ebind].
  destruct Hl0 as [-> | [tokens ->]]; cbn [Explainer.ebind Explainer.as_tokens];
    eauto.
Qed.

Lemma explainer_after_failed_run_witness :
  ∃ st' e',
    Tuner.call demo demo_khaiii (lit "naneun gongbu hae") (lit "boss")
               (lit "private") Tuner.init
    = (inl (KeyError (KStr (lit "private"))), st')
    ∧ Explainer.call demo elements st' = ([], inl e').
Proof.
  destruct (Tuner.call demo demo_khaiii (lit "naneun gongbu hae") (lit "boss")
              (lit "private") Tuner.init) as [r st'] eqn:E.
  assert (Hr : r = inl (KeyError (KStr (lit "private")))).
  { change r with (r, st').1. rewrite <- E. vm_compute. reflexivity. }
  subst r.
  destruct (explainer_after_failed_run demo demo_khaiii elements _ _ _ _ _ _ E)
    as [[e' He'] _].
  exists st', e'. split; [reflexivity | exact He'].
Defined.

(** X17: when the explainer returns, a step whose history set is empty
    reads its fixed sentence ("No abbreviation rules were applied.",
    "No conjugation rules were applied."), and the set of irregular pairs
    is printed exactly when it is not empty. *)
Theorem explainer_empty_histories (T : Tables)
    (iter : gset (str * str) → list (str * str)) (tuner : Tuner.t)
    (msgs : list str) :
  (Explainer.call T iter tuner).2 = inr msgs →
  (Tuner.history_abbreviations tuner = ∅ →
   msgs !! 3 = Some (lit "### " ++ Explainer.keycap "4" ++ lit " Apply abbreviations"
                     ++ Explainer.nl ++ lit "No abbreviation rules were applied."))
  ∧ (Tuner.history_irregulars tuner = ∅ →
     msgs !! 4 = Some (lit "### " ++ Explainer.keycap "5"
                       ++ lit " Apply irregular conjugations"
                       ++ Explainer.nl ++ lit "No conjugation rules were applied.")
     ∧ (Explainer.call T iter tuner).1 = [])
  ∧ (Tuner.history_irregulars tuner ≠ ∅ →
     (Explainer.call T iter tuner).1 = [Tuner.history_irregulars tuner]).
Proof.
  unfold Explainer.call.
  destruct (Explainer.msg_1 T tuner) as [e|m1]; [done |]. cbn [Explainer.ebind].
  destruct (Explainer.msg_2 tuner) as [e|m2]; [done |]. cbn [Explainer.ebind].
  destruct (Explainer.msg_3 iter tuner) as [e|m3]; [done |]. cbn [Explainer.ebind].
  destruct (Explainer.msg_4 iter tuner) as [e|m4] eqn:E4; [done |].
  cbn [Explainer.ebind snd fst].
  destruct (Explainer.msg_5 iter tuner) as [e|m5] eqn:E5; [done |].
  cbn [Explainer.ebind]. intros [= <-]. split_and!.
  - intros Ha. unfold Explainer.msg_4, Explainer.msg_with in E4.
    rewrite Ha in E4. rewrite bool_decide_eq_false_2 in E4 by (intros Hne; by apply Hne).
    injection E4 as <-. done.
  - intros Hi. unfold Explainer.msg_5, Explainer.msg_with in E5.
    rewrite Hi in *. rewrite bool_decide_eq_false_2 in * by (intros Hne; by apply Hne).
    injection E5 as <-. done.
  - intros Hi. by rewrite bool_decide_eq_true_2.
Qed.

Lemma explainer_empty_histories_witness :
  ∃ msgs,
    (Explainer.call tuner_demo elements explained_demo).2 = inr msgs
    ∧ msgs !! 3 = Some (lit "### " ++ Explainer.keycap "4" ++ lit " Apply abbreviations"
                        ++ Explainer.nl ++ lit "No abbreviation rules were applied.").
Proof.
  eexists. split; [vm_compute; reflexivity |].
  refine (proj1 (explainer_empty_histories tuner_demo elements explained_demo _ _) _);
    vm_compute; reflexivity.
Defined.

(** ** [Tuner.preprocess] and [Tuner.postprocess] *)

(** X18: the older variant hands the analyzer a text that always ends
    with ["."] (the period is appended after ["?"] and ["!"] too, and
    nothing is stripped), and [postprocess] undoes [preprocess]: run one
    after the other, they leave the sentence as it was given. *)
Theorem tuner_preprocess_postprocess (sent listener visibility : str) (st : Tuner.t) :
  let st0 := Tuner.set_inputs sent listener visibility st in
  Tuner.preprocess st0 = (inr tt, Tuner.set_out (VStr (tuner_preprocessed sent)) st0)
  ∧ Py.endswith [period] (tuner_preprocessed sent) = true
  ∧ (Py.endswith [period] sent = false → tuner_preprocessed sent = sent ++ [period])
  ∧ (Tuner.preprocess ;; Tuner.postprocess) st0
    = (inr tt, Tuner.set_out (VStr sent) st0).
Proof.
  intros st0. subst st0. destruct st as [s0 l0 v0 o lg hh ha hi].
  unfold tuner_preprocessed. split_and!.
  - reflexivity.
  - destruct (Py.endswith [period] sent) eqn:E; cbn [negb]; [done |].
    apply endswith_spec. eauto.
  - by intros ->.
  - rewrite bind_eval. unfold Tuner.preprocess, Tuner.postprocess. unfold_tuner.
    destruct (Py.endswith [period] sent) eqn:E; cbn [negb]; [done |].
    unfold Py.drop_last. by rewrite removelast_last.
Qed.

(** ** [Styler.matched] with newlines *)

(** X19: what [matched] computes on any text: the pattern must occur
    with, before it, nothing or a newline-free stretch ending in ["+"]
    ([.] does not cross a newline) and, after it, nothing, a ["+"], or a
    single final newline ([$] also matches before a final newline); in
    particular a pattern always matches itself. *)
Theorem matched_exact (pattern string : str) :
  (matched pattern string = true
   ↔ ∃ pre post, string = pre ++ pattern ++ post
       ∧ (pre = [] ∨ ∃ pre', pre = pre' ++ [plus] ∧ (Re.newline ∉ pre'))
       ∧ (post = [] ∨ post = [Re.newline] ∨ ∃ post', post = plus :: post'))
  ∧ matched pattern pattern = true.
Proof.
  split; [apply matched_spec |]. apply matched_spec. exists [], [].
  rewrite app_nil_r. split_and!; [done | by left | by left].
Qed.


(** * The claims on which the two variants differ *)

(** ** Conjugation: [Styler.conjugate] and [Tuner.apply_honorifics] *)

Lemma conjugate_steps_pass (politeness : Z) (table : dict str (dict Z str))
    (tuned out : str) (applied : list (str * str)) a o lg hc ha hi :
  conjugate_pass politeness table tuned = Some (out, applied) →
  for_acc table tuned (Styler.conjugate_step politeness) (Styler.mk a o lg hc ha hi)
  = (inr out, Styler.mk a o lg (list_to_set applied ∪ hc) ha hi).
Proof.
  revert tuned out applied hc;
    induction table as [|[pattern levels] table IH]; intros tuned out applied hc H.
  - injection H as <- <-. cbn. do 2 f_equal. set_solver.
  - cbn [conjugate_pass] in H. cbn [for_acc]. rewrite bind_eval.
    unfold Styler.conjugate_step at 1. unfold_monad.
    destruct (matched pattern tuned); [| by apply IH].
    destruct (dict_get politeness levels) as [honorific|]; [| done].
    destruct (conjugate_pass _ _ _) as [[out' applied']|] eqn:E; [| done].
    injection H as <- <-. rewrite (IH _ _ _ _ E). do 2 f_equal. set_solver.
Qed.

Lemma conjugate_tokens_pass (T : Tables) (politeness : Z)
    (tokens : list KhaiiiWord) (passes : list (str * list (str * str)))
    (out0 : list str) a o lg hc ha hi :
  Forall2 (λ token pass,
             conjugate_pass politeness (HONORIFICS T) (signature token) = Some pass)
          tokens passes →
  for_acc (map (λ token, (lex token, map morph_str (morphs token))) tokens) out0
          (Styler.conjugate_token T politeness) (Styler.mk a o lg hc ha hi)
  = (inr (out0 ++ zip_with emit_tuned tokens passes.*1),
     Styler.mk a o lg (list_to_set (concat passes.*2) ∪ hc) ha hi).
Proof.
  intros Hall. revert out0 hc.
  induction Hall as [|token [tuned applied] tokens passes Hp Hall IH]; intros out0 hc.
  - cbn. rewrite app_nil_r. do 2 f_equal. set_solver.
  - cbn [map for_acc]. rewrite bind_eval.
    unfold Styler.conjugate_token at 1. rewrite bind_eval.
    fold (signature token). rewrite (conjugate_steps_pass _ _ _ _ _ _ _ _ _ _ _ Hp).
    cbn [mret M_ret]. rewrite IH. cbn [fmap list_fmap zip_with concat fst snd].
    rewrite <- app_assoc. do 2 f_equal. rewrite list_to_set_app_L. set_solver.
Qed.

Lemma conjugate_pass_applied (politeness : Z) (table : dict str (dict Z str))
    (tuned out : str) (applied : list (str * str)) :
  conjugate_pass politeness table tuned = Some (out, applied) →
  ∀ pattern honorific,
    (pattern, honorific) ∈ applied
    ↔ ∃ before levels after working applied0,
        table = before ++ (pattern, levels) :: after
        ∧ conjugate_pass politeness before tuned = Some (working, applied0)
        ∧ matched pattern working = true
        ∧ dict_get politeness levels = Some honorific.
Proof.
  revert tuned out applied;
    induction table as [|[pat lv] table IH]; intros tuned out applied H pattern honorific.
  - injection H as <- <-. split; [by intros ?%elem_of_nil |].
    intros (t1 & ? & ? & ? & ? & Ht & _). by destruct t1.
  - cbn [conjugate_pass] in H. destruct (matched pat tuned) eqn:Em.
    + destruct (dict_get politeness lv) as [h|] eqn:Eh; [| done].
      destruct (conjugate_pass _ _ _) as [[out' applied']|] eqn:E; [| done].
      injection H as <- <-. rewrite elem_of_cons, (IH _ _ _ E). split.
      * intros [[= -> ->] | (t1 & levels & t2 & w & a1 & -> & Hw & Hm & Hl)].
        -- exists [], lv, table, tuned, []. split_and!; done.
        -- exists ((pat, lv) :: t1), levels, t2, w, ((pat, h) :: a1).
           split_and!; [done | | done | done].
           cbn [conjugate_pass]. by rewrite Em, Eh, Hw.
      * intros (t1 & levels & t2 & w & a1 & Ht & Hw & Hm & Hl).
        destruct t1 as [|e t1]; simplify_eq/=.
        -- left. congruence.
        -- right. rewrite Em, Eh in Hw.
           destruct (conjugate_pass _ t1 _) as [[w' a1']|] eqn:E1; [| done].
           injection Hw as <- <-. eauto 10.
    + rewrite (IH _ _ _ H). split.
      * intros (t1 & levels & t2 & w & a1 & -> & Hw & Hm & Hl).
        exists ((pat, lv) :: t1), levels, t2, w, a1.
        split_and!; [done | | done | done]. cbn [conjugate_pass]. by rewrite Em.
      * intros (t1 & levels & t2 & w & a1 & Ht & Hw & Hm & Hl).
        destruct t1 as [|e t1]; simplify_eq/=.
        -- congruence.
        -- rewrite Em in Hw. eauto 10.
Qed.

Lemma matched_occurs (pattern tuned : str) :
  matched pattern tuned = true → Py.contains pattern tuned = true.
Proof.
  intros (pre & post & -> & _)%matched_spec. apply contains_spec. eauto.
Qed.

(** C1, as the code has it.  In [Styler.conjugate], for every token, the
    honorific keys are tried in table order on the token's joined
    signature; every key that matches the working string (not only the
    first) is replaced there, as a literal substring, by its replacement
    at the politeness level, and the next key is tried on the string so
    obtained; a key that does not match changes nothing and needs no
    replacement at the level; the conjugation set gains exactly the
    pairs applied.  The older [Tuner.apply_honorifics] makes no test per
    key: a token with a run of morphemes equal to a key has every
    pattern of the table replaced, and the set then gains every pair of
    the table. *)
Theorem conjugation_applies_matching_keys (T : Tables) (st : Styler.t)
    (a : Styler.Args) (by_environ : dict str Case) (case : Case)
    (tokens : list KhaiiiWord) (passes : list (str * list (str * str))) :
  dict_get (Styler.listener a) (RULES T) = Some by_environ →
  dict_get (Styler.environ a) by_environ = Some case →
  Forall2 (λ token pass,
             conjugate_pass (politeness case) (HONORIFICS T) (signature token)
             = Some pass) tokens passes →
  Styler.conjugate T (Styler.set_out (VTokens tokens) (Styler.set_args a st))
  = (inr tt,
     Styler.mk (Some a)
       (VStr (Py.join [space] (zip_with emit_tuned tokens passes.*1)))
       (Styler.logs st)
       (list_to_set (concat passes.*2) ∪ Styler.history_conjugations st)
       (Styler.history_abbreviations st) (Styler.history_irregulars st))
  ∧ (∀ level pattern levels honorific rest tuned,
       matched pattern tuned = true →
       dict_get level levels = Some honorific →
       conjugate_pass level ((pattern, levels) :: rest) tuned
       = (λ r, (r.1, (pattern, honorific) :: r.2))
           <$> conjugate_pass level rest (Py.replace pattern honorific tuned))
  ∧ (∀ level pattern levels rest tuned,
       matched pattern tuned = false →
       conjugate_pass level ((pattern, levels) :: rest) tuned
       = conjugate_pass level rest tuned)
  ∧ (∀ pattern honorific tuned,
       matched pattern tuned = true →
       occurs_in honorific (Py.replace pattern honorific tuned))
  ∧ (∀ pattern honorific rest,
       pattern ≠ [] →
       Py.replace pattern honorific (pattern ++ rest)
       = honorific ++ Py.replace pattern honorific rest)
  ∧ (∀ pattern honorific c rest,
       pattern ≠ [] → Py.startswith pattern (c :: rest) = false →
       Py.replace pattern honorific (c :: rest)
       = c :: Py.replace pattern honorific rest)
  ∧ (∀ level table tuned out applied,
       conjugate_pass level table tuned = Some (out, applied) →
       ∀ pattern honorific,
         (pattern, honorific) ∈ applied
         ↔ ∃ before levels after working applied0,
             table = before ++ (pattern, levels) :: after
             ∧ conjugate_pass level before tuned = Some (working, applied0)
             ∧ matched pattern working = true
             ∧ dict_get level levels = Some honorific)
  ∧ (∀ sent listener visibility by_visibility case' rules tokens' lg hh ha hi,
       dict_get listener (RULES T) = Some by_visibility →
       dict_get visibility by_visibility = Some case' →
       at_level (politeness case') (HONORIFICS T) = Some rules →
       Tuner.apply_honorifics T
         (Tuner.mk (Some sent) (Some listener) (Some visibility) (VTokens tokens')
                   lg hh ha hi)
       = (inr tt,
          Tuner.mk (Some sent) (Some listener) (Some visibility)
            (VStr (Py.join [space] (map (tuner_emit T rules) tokens'))) lg
            ((if existsb (has_span_key T) tokens' then list_to_set rules else ∅) ∪ hh)
            ha hi)).
Proof.
  intros H1 H2 Hall. split_and!.
  - destruct st as [a0 o lg hc ha hi]. unfold Styler.conjugate. unfold_monad.
    rewrite H1, H2. by rewrite (conjugate_tokens_pass _ _ _ passes).
  - intros level pattern levels honorific rest tuned Hm Hl.
    cbn [conjugate_pass]. rewrite Hm, Hl.
    by destruct (conjugate_pass _ _ _) as [[??]|].
  - intros level pattern levels rest tuned Hm. cbn [conjugate_pass]. by rewrite Hm.
  - intros pattern honorific tuned Hm.
    by apply contains_spec, contains_replace, matched_occurs.
  - intros pattern honorific rest Hne. by apply replace_at_occurrence.
  - intros pattern honorific c rest Hne Hs. by apply replace_no_occurrence_here.
  - apply conjugate_pass_applied.
  - intros sent listener visibility by_visibility case' rules tokens' lg hh ha hi
      H1' H2' Hlv.
    unfold Tuner.apply_honorifics. unfold_tuner.
    rewrite H1', H2'. by rewrite (honorifics_tokens_eval _ _ rules).
Qed.

(** A run at level 2 on a table whose last pattern has no replacement at
    that level: the pattern never matches, so the stage returns; both
    matching keys are applied, the second on the string the first left. *)
Lemma conjugation_applies_matching_keys_witness :
  at_level 2 (HONORIFICS demo_partial) = None
  ∧ Styler.conjugate demo_partial
      (Styler.set_out (VTokens demo_tokens) (Styler.set_args demo_args Styler.init))
    = (inr tt,
       Styler.mk (Some demo_args) (VStr (lit "naneun gongbu haeyo.")) []
         {[ (lit "a/EF", lit "ayo/EF"); (lit "ha/VV+ayo/EF", lit "hae/VV+yo/EF") ]}
         ∅ ∅).
Proof.
  split; [reflexivity |].
  assert (Hpasses :
    Forall2 (λ token pass,
               conjugate_pass 2 (HONORIFICS demo_partial) (signature token) = Some pass)
      demo_tokens
      [ (lit "na/NP+neun/JX", []); (lit "gongbu/NNG", []);
        (lit "hae/VV+yo/EF+./SF",
         [ (lit "a/EF", lit "ayo/EF"); (lit "ha/VV+ayo/EF", lit "hae/VV+yo/EF") ]) ]).
  { repeat constructor. }
  pose proof (proj1 (conjugation_applies_matching_keys demo_partial Styler.init
                       demo_args _ {| politeness := 2; reason := lit "polite" |}
                       demo_tokens _ eq_refl eq_refl Hpasses)) as H.
  assert (Hout : Py.join [space]
                   (zip_with emit_tuned demo_tokens
                      [lit "na/NP+neun/JX"; lit "gongbu/NNG"; lit "hae/VV+yo/EF+./SF"])
                 = lit "naneun gongbu haeyo.") by (vm_compute; reflexivity).
  assert (Hset : list_to_set
                   [ (lit "a/EF", lit "ayo/EF");
                     (lit "ha/VV+ayo/EF", lit "hae/VV+yo/EF") ] ∪ ∅
                 = ({[ (lit "a/EF", lit "ayo/EF");
                       (lit "ha/VV+ayo/EF", lit "hae/VV+yo/EF") ]}
                    : gset (str * str))).
  { apply (bool_decide_unpack _). vm_compute. exact I. }
  cbn [fmap list_fmap fst snd concat app] in H.
  cbn [Styler.logs Styler.history_conjugations Styler.history_abbreviations
       Styler.history_irregulars Styler.init] in H.
  rewrite Hout, Hset in H. exact H.
Defined.

(** C1 as stated fails on the older variant: the pair of the pattern
    ["sida/EF"] is recorded although the pattern matches none of the
    strings the token's signature goes through. *)
Lemma tuner_records_unmatched_counterexample :
  let r := Tuner.apply_honorifics demo_unused
             (Tuner.mk (Some (lit "hae")) (Some (lit "friend")) (Some (lit "public"))
                       (VTokens [demo_verb]) [] ∅ ∅ ∅) in
  r.1 = inr tt
  ∧ Tuner.out r.2 = VStr (lit "haeyo.")
  ∧ (lit "sida/EF", lit "seyo/EF") ∈ Tuner.history_honorifics r.2
  ∧ matched (lit "sida/EF") (lit "ha/VV+a/EF+./SF") = false
  ∧ matched (lit "sida/EF") (lit "ha/VV+ayo/EF+./SF") = false
  ∧ matched (lit "sida/EF") (lit "hae/VV+yo/EF+./SF") = false
  ∧ signature demo_verb = lit "ha/VV+a/EF+./SF".
Proof.
  split_and!; [reflexivity | reflexivity | | reflexivity ..].
  apply (bool_decide_unpack _). vm_compute. exact I.
Qed.

(** ** Preprocessing: [Styler.preprocess] and [Tuner.preprocess] *)

Lemma tuner_preprocessed_spec (sent : str) :
  tuner_preprocessed sent = ensure_final_period sent.
Proof.
  unfold tuner_preprocessed, ensure_final_period. rewrite endswith_char.
  destruct (last sent) as [c|]; [| done].
  destruct (decide (c = period)) as [-> | Hc]; [done |].
  rewrite (bool_decide_eq_false_2 (Some c = Some period)) by congruence.
  by rewrite (bool_decide_eq_false_2 (c = period)).
Qed.

(** C4, as the code has it.  [Styler.preprocess] trims the surrounding
    whitespace of the sentence and appends ["."] exactly when the trimmed
    text ends with none of ["."], ["?"], ["!"]; otherwise the trimmed
    text is handed to the analyzer unchanged.  The older
    [Tuner.preprocess] trims nothing and appends ["."] exactly when the
    sentence as given does not end with ["."], so also after ["?"] and
    ["!"]; that text is what its analyzer is called on. *)
Theorem preprocess_by_variant (khaiii : KhaiiiApi)
    (sent listener environ : str) (st : Styler.t) (tuner : Tuner.t) :
  let st0 := Styler.set_args
               {| Styler.sent := sent; Styler.listener := listener;
                  Styler.environ := environ |} st in
  let tu0 := Tuner.set_inputs sent listener environ tuner in
  (∃ trimmed, trim_of sent trimmed
    ∧ Styler.preprocess st0
      = (inr tt, Styler.set_out (VStr (ensure_final_punctuation trimmed)) st0)
    ∧ (Styler.preprocess ;; Styler.analyze khaiii) st0
      = match khaiii (ensure_final_punctuation trimmed) with
        | inl e => (inl e, Styler.set_out (VStr (ensure_final_punctuation trimmed)) st0)
        | inr tokens => (inr tt, Styler.set_out (VTokens tokens) st0)
        end)
  ∧ Tuner.preprocess tu0
    = (inr tt, Tuner.set_out (VStr (ensure_final_period sent)) tu0)
  ∧ (Tuner.preprocess ;; Tuner.analyze_morphemes khaiii) tu0
    = match khaiii (ensure_final_period sent) with
      | inl e => (inl e, Tuner.set_out (VStr (ensure_final_period sent)) tu0)
      | inr tokens => (inr tt, Tuner.set_out (VTokens tokens) tu0)
      end.
Proof.
  intros st0 tu0. split_and!.
  - exists (Py.strip sent). split; [apply strip_spec |].
    rewrite <- punctuate_spec. split; [reflexivity |].
    subst st0.
    cbv [Styler.preprocess Styler.analyze Styler.arg Styler.out_str get modify
         raise mbind M_bind mret M_ret Styler.set_args Styler.set_out
         Styler.args Styler.out].
    destruct (khaiii _); reflexivity.
  - rewrite <- tuner_preprocessed_spec. subst tu0. by destruct tuner.
  - rewrite <- tuner_preprocessed_spec. subst tu0.
    destruct tuner as [s0 l0 v0 o lg hh ha hi]. rewrite bind_eval.
    change (Tuner.preprocess (Tuner.set_inputs sent listener environ
                                (Tuner.mk s0 l0 v0 o lg hh ha hi)))
      with (@inr exn unit tt,
            Tuner.mk (Some sent) (Some listener) (Some environ)
                     (VStr (tuner_preprocessed sent)) lg hh ha hi).
    cbv iota. rewrite tuner_analyze_eval. by destruct (khaiii _).
Qed.

(** C4 as stated fails on the older variant: the sentence [" hae? "]
    is neither trimmed nor left without a period after its ["?"]. *)
Lemma tuner_preprocess_counterexample :
  let tu0 := Tuner.set_inputs (lit " hae? ") (lit "friend") (lit "public")
                              Tuner.init in
  Tuner.preprocess tu0 = (inr tt, Tuner.set_out (VStr (lit " hae? .")) tu0)
  ∧ ensure_final_punctuation (Py.strip (lit " hae? ")) = lit "hae?"
  ∧ lit " hae? ." ≠ lit "hae?".
Proof. split_and!; [reflexivity | reflexivity | discriminate]. Qed.
